(** * Graph data types of the Neo4j Python driver (neo4j/v1/types/graph.py)

    A shallow embedding of [Entity], [Node], [Relationship] and [Path],
    with the path decompression of [Path.hydrate] written in a state and
    exception monad over a store of node and relationship objects. *)

From Stdlib Require Import ZArith Lia.
From stdpp Require Import base tactics option list gmap strings functions.

Open Scope Z_scope.

(** ** Python values *)

(** The scalar values that the wire layer hands to this module as
    identifiers, relationship types and property values.  [VNone] is
    Python's [None]. *)
Inductive value : Type :=
  | VNone
  | VInt (z : Z)
  | VStr (s : string).

#[global] Instance value_eq_dec : EqDecision value.
Proof. solve_decision. Defined.

(** [v is not None] *)
Definition is_not_None (v : value) : bool :=
  match v with VNone => false | _ => true end.

(** Exceptions raised by the code under study. *)
Inductive exn : Type :=
  | AssertionError
  | IndexError
  | AttributeError
  | TypeError.

#[global] Instance exn_eq_dec : EqDecision exn.
Proof. solve_decision. Defined.

(** Outcome of an expression that may raise. *)
Inductive result (A : Type) : Type :=
  | Ok (a : A)
  | Raise (e : exn).
Arguments Ok {A} a.
Arguments Raise {A} e.

#[global] Instance result_ret : MRet result := λ A a, Ok a.
#[global] Instance result_bind : MBind result := λ A B f m,
  match m with Ok a => f a | Raise e => Raise e end.

(** ** Python containers *)

(** [l[i]] on a list or tuple: negative indices count from the end, an
    index outside [-len(l), len(l)) raises [IndexError]. *)
Definition py_index {A : Type} (l : list A) (i : Z) : result A :=
  let n := Z.of_nat (length l) in
  let j := if i <? 0 then i + n else i in
  if (0 <=? j) && (j <? n)
  then match l !! Z.to_nat j with Some a => Ok a | None => Raise IndexError end
  else Raise IndexError.

(** [l[0::2]], also written [l[::2]]. *)
Fixpoint slice_0_2 {A : Type} (l : list A) : list A :=
  match l with
  | [] => []
  | x :: t => x :: match t with [] => [] | _ :: t' => slice_0_2 t' end
  end.

(** [l[1::2]] *)
Definition slice_1_2 {A : Type} (l : list A) : list A :=
  slice_0_2 (drop 1 l).

(** [enumerate(l)], counting from [n]. *)
Fixpoint enumerate_from {A : Type} (n : nat) (l : list A) : list (nat * A) :=
  match l with
  | [] => []
  | x :: t => (n, x) :: enumerate_from (S n) t
  end.

Definition enumerate {A : Type} (l : list A) : list (nat * A) :=
  enumerate_from 0 l.

(** [d.get(name, default)] on a dict with string keys. *)
Definition dict_get (d : gmap string value) (name : string) (default : value)
  : value :=
  match d !! name with Some v => v | None => default end.

(** [name in d] *)
Definition dict_contains (d : gmap string value) (name : string) : bool :=
  bool_decide (is_Some (d !! name)).

(** [len(d)] *)
Definition dict_len (d : gmap string value) : nat := size d.

(** ** Entity *)

(** [Entity.__init__(self, properties=None, **kwproperties)]: the value
    stored in [self.properties].
<<
    properties = dict(properties or {}, **kwproperties)
    self.properties = dict((k, v) for k, v in properties.items() if v is not None)
>> *)
Definition Entity_init (properties : option (gmap string value))
    (kwproperties : gmap string value) : gmap string value :=
  let properties := kwproperties ∪ default ∅ properties in
  filter (λ kv, is_not_None kv.2 = true) properties.

(** The attributes every [Entity] instance carries. *)
Class Entity (T : Type) : Type := {
  entity_id : T → value;
  entity_properties : T → gmap string value;
}.

Section entity_methods.
Context {T : Type} `{!Entity T}.

(** [Entity.__len__] *)
Definition Entity_len (self : T) : nat := dict_len (entity_properties self).

(** [Entity.__getitem__]: [self.properties.get(name)] *)
Definition Entity_getitem (self : T) (name : string) : value :=
  dict_get (entity_properties self) name VNone.

(** [Entity.__contains__] *)
Definition Entity_contains (self : T) (name : string) : bool :=
  dict_contains (entity_properties self) name.

(** [Entity.get(self, name, default=None)] *)
Definition Entity_get (self : T) (name : string) (default : value) : value :=
  dict_get (entity_properties self) name default.
End entity_methods.

(** ** Node *)

Record Node : Type := mkNode {
  node_id : value;
  node_labels : gset string;
  node_properties : gmap string value;
}.

#[global] Instance Node_entity : Entity Node :=
  {| entity_id := node_id; entity_properties := node_properties |}.

(** [Node.__init__(self, labels=None, properties=None, **kwproperties)];
    [id] keeps the class default [None]. *)
Definition Node_init (labels : option (gset string))
    (properties : option (gmap string value))
    (kwproperties : gmap string value) : Node :=
  {| node_id := VNone;
     node_labels := default ∅ labels;
     node_properties := Entity_init properties kwproperties |}.

(** [Node.hydrate(cls, id_, labels, properties=None)] *)
Definition Node_hydrate (id_ : value) (labels : option (gset string))
    (properties : option (gmap string value)) : Node :=
  let inst := Node_init labels properties ∅ in
  {| node_id := id_;
     node_labels := node_labels inst;
     node_properties := node_properties inst |}.

(** ** Relationship *)

Record Relationship : Type := mkRelationship {
  rel_id : value;
  rel_start : value;
  rel_end : value;
  rel_type : value;
  rel_properties : gmap string value;
}.

#[global] Instance Relationship_entity : Entity Relationship :=
  {| entity_id := rel_id; entity_properties := rel_properties |}.

(** [Relationship.__init__(self, start, end, type, properties=None, **kwproperties)] *)
Definition Relationship_init (start end_ type : value)
    (properties : option (gmap string value))
    (kwproperties : gmap string value) : Relationship :=
  {| rel_id := VNone;
     rel_start := start;
     rel_end := end_;
     rel_type := type;
     rel_properties := Entity_init properties kwproperties |}.

(** [Relationship.hydrate(cls, id_, start, end, type, properties=None)] *)
Definition Relationship_hydrate (id_ start end_ type : value)
    (properties : option (gmap string value)) : Relationship :=
  let inst := Relationship_init start end_ type properties ∅ in
  {| rel_id := id_;
     rel_start := rel_start inst;
     rel_end := rel_end inst;
     rel_type := rel_type inst;
     rel_properties := rel_properties inst |}.

(** [Relationship.hydrate_unbound(cls, id_, type, properties=None)] *)
Definition Relationship_hydrate_unbound (id_ type : value)
    (properties : option (gmap string value)) : Relationship :=
  Relationship_hydrate id_ VNone VNone type properties.

(** Assignments [r.start = v] and [r.end = v] on a relationship object. *)
Definition set_start (v : value) (r : Relationship) : Relationship :=
  {| rel_id := rel_id r; rel_start := v; rel_end := rel_end r;
     rel_type := rel_type r; rel_properties := rel_properties r |}.

Definition set_end (v : value) (r : Relationship) : Relationship :=
  {| rel_id := rel_id r; rel_start := rel_start r; rel_end := v;
     rel_type := rel_type r; rel_properties := rel_properties r |}.

(** ** Object store *)

(** Nodes and relationships are objects: lists and tuples hold references
    to them, and an attribute assignment through one reference is seen
    through every other.  A reference is the address of an object in the
    store of its class; every address holds an object, as every Python
    reference does. *)
Abbreviation loc := nat.

Inductive ref : Type :=
  | RNode (l : loc)
  | RRel (l : loc).

#[global] Instance ref_eq_dec : EqDecision ref.
Proof. solve_decision. Defined.

Record heap : Type := mkHeap {
  node_store : loc → Node;
  rel_store : loc → Relationship;
}.

(** [x.id] for a reference [x] to a node or a relationship. *)
Definition ref_id (h : heap) (x : ref) : value :=
  match x with
  | RNode l => entity_id (node_store h l)
  | RRel l => entity_id (rel_store h l)
  end.

(** Computations that read and write the store and may raise. *)
Definition M (A : Type) : Type := heap → result A * heap.

#[global] Instance M_ret : MRet M := λ A a h, (Ok a, h).
#[global] Instance M_bind : MBind M := λ A B f m h,
  match m h with
  | (Ok a, h') => f a h'
  | (Raise e, h') => (Raise e, h')
  end.

Definition lift {A : Type} (r : result A) : M A := λ h, (r, h).

(** [assert b] *)
Definition assert_ (b : bool) : M unit :=
  lift (if b then Ok () else Raise AssertionError).

(** [n.id] for a node [n] *)
Definition node_get_id (n : loc) : M value :=
  λ h, (Ok (node_id (node_store h n)), h).

(** [r.start = v] *)
Definition rel_set_start (r : loc) (v : value) : M unit :=
  λ h, (Ok (), mkHeap (node_store h) (alter (set_start v) r (rel_store h))).

(** [r.end = v] *)
Definition rel_set_end (r : loc) (v : value) : M unit :=
  λ h, (Ok (), mkHeap (node_store h) (alter (set_end v) r (rel_store h))).

(** ** Path *)

Record Path : Type := mkPath {
  path_nodes : list ref;
  path_relationships : list ref;
}.

(** [Path.__init__(self, start_node, *rels_and_nodes)] *)
Definition Path_init (start_node : ref) (rels_and_nodes : list ref) : Path :=
  {| path_nodes := start_node :: slice_1_2 rels_and_nodes;
     path_relationships := slice_0_2 rels_and_nodes |}.

(** [cls] applied to the unpacked [entities]: the call needs at least the
    [start_node] argument. *)
Definition Path_new (entities : list ref) : result Path :=
  match entities with
  | [] => Raise TypeError
  | start_node :: rels_and_nodes => Ok (Path_init start_node rels_and_nodes)
  end.

(** [Path.__len__] *)
Definition Path_len (self : Path) : nat := length (path_relationships self).

(** [Path.start]: [self.nodes[0]] *)
Definition Path_start (self : Path) : result ref := py_index (path_nodes self) 0.

(** [Path.end]: [self.nodes[-1]] *)
Definition Path_end (self : Path) : result ref := py_index (path_nodes self) (-1).

(** The variables the loop of [Path.hydrate] updates. *)
Record loop_state : Type := mkLoop {
  last_node : loc;
  entities : list ref;
}.

(** One iteration of the [for] loop of [Path.hydrate], for the item
    [(i, rel_index)] of [enumerate(sequence[::2])]. *)
Definition hydrate_body (nodes rels : list loc) (sequence : list Z)
    (st : loop_state) (item : nat * Z) : M loop_state :=
  let '(i, rel_index) := item in
  assert_ (negb (rel_index =? 0)) ;;
  k ← lift (py_index sequence (2 * Z.of_nat i + 1)) ;
  next_node ← lift (py_index nodes k) ;
  if 0 <? rel_index then
    r ← lift (py_index rels (rel_index - 1)) ;
    v ← node_get_id (last_node st) ; rel_set_start r v ;;
    v ← node_get_id next_node ; rel_set_end r v ;;
    mret (mkLoop next_node (entities st ++ [RRel r] ++ [RNode next_node]))
  else
    r ← lift (py_index rels (- rel_index - 1)) ;
    v ← node_get_id next_node ; rel_set_start r v ;;
    v ← node_get_id (last_node st) ; rel_set_end r v ;;
    mret (mkLoop next_node (entities st ++ [RRel r] ++ [RNode next_node])).

(** The [for] loop over the remaining [items]. *)
Fixpoint hydrate_loop (nodes rels : list loc) (sequence : list Z)
    (items : list (nat * Z)) (st : loop_state) : M loop_state :=
  match items with
  | [] => mret st
  | item :: items' =>
      st' ← hydrate_body nodes rels sequence st item ;
      hydrate_loop nodes rels sequence items' st'
  end.

(** [Path.hydrate(cls, nodes, rels, sequence)].  The [assert] statements
    are executed, as they are unless the interpreter runs with [-O]. *)
Definition Path_hydrate (nodes rels : list loc) (sequence : list Z) : M Path :=
  assert_ (1 <=? Z.of_nat (length nodes)) ;;
  assert_ (Z.of_nat (length sequence) mod 2 =? 0) ;;
  n0 ← lift (py_index nodes 0) ;
  st ← hydrate_loop nodes rels sequence (enumerate (slice_0_2 sequence))
         (mkLoop n0 [RNode n0]) ;
  lift (Path_new (entities st)).

(** ** Comparison operands *)

(** What an attribute of a compared object may hold: a scalar, a reference
    to a node or relationship, or a tuple of such references. *)
Inductive basic : Type :=
  | BVal (v : value)
  | BRef (x : ref)
  | BTuple (t : list ref).

(** The right-hand operands of [==] considered here: a [basic] value, a
    [Path], or a foreign object with the default [object] comparison and
    the instance attributes [attrs]. *)
Inductive pyobj : Type :=
  | OBasic (a : basic)
  | OPath (p : Path)
  | OForeign (attrs : gmap string basic).

Definition foreign_getattr (attrs : gmap string basic) (name : string)
  : result basic :=
  match attrs !! name with Some a => Ok a | None => Raise AttributeError end.

(** [other.id]: [Entity] gives every node and relationship the attribute;
    [None], integers, strings, tuples and paths have none. *)
Definition getattr_id (h : heap) (other : pyobj) : result basic :=
  match other with
  | OBasic (BRef x) => Ok (BVal (ref_id h x))
  | OBasic (BVal _) => Raise AttributeError
  | OBasic (BTuple _) => Raise AttributeError
  | OPath _ => Raise AttributeError
  | OForeign attrs => foreign_getattr attrs "id"
  end.

(** [other.start]: an attribute of relationships and a property of paths. *)
Definition getattr_start (h : heap) (other : pyobj) : result basic :=
  match other with
  | OBasic (BRef (RRel l)) => Ok (BVal (rel_start (rel_store h l)))
  | OBasic _ => Raise AttributeError
  | OPath p => x ← Path_start p ; Ok (BRef x)
  | OForeign attrs => foreign_getattr attrs "start"
  end.

(** [other.relationships]: an attribute of paths only. *)
Definition getattr_relationships (other : pyobj) : result basic :=
  match other with
  | OBasic _ => Raise AttributeError
  | OPath p => Ok (BTuple (path_relationships p))
  | OForeign attrs => foreign_getattr attrs "relationships"
  end.

(** [v == a] for a scalar [v]: scalars of different types are unequal; for
    an entity [a] the reflected [Entity.__eq__] finds no [v.id] and
    answers [False]; for a tuple neither side knows the other. *)
Definition value_eq (v : value) (a : basic) : bool :=
  match a with
  | BVal w => bool_decide (v = w)
  | BRef _ => false
  | BTuple _ => false
  end.

(** [try: body  except AttributeError: return False] *)
Definition except_AttributeError (body : result bool) : result bool :=
  match body with
  | Raise AttributeError => Ok false
  | r => r
  end.

(** [Entity.__eq__(self, other)] *)
Definition Entity_eq (h : heap) (self : ref) (other : pyobj) : result bool :=
  except_AttributeError (
    other_id ← getattr_id h other ;
    Ok (value_eq (ref_id h self) other_id)).

(** [Entity.__ne__(self, other)] *)
Definition Entity_ne (h : heap) (self : ref) (other : pyobj) : result bool :=
  b ← Entity_eq h self other ; Ok (negb b).

(** Comparison of two tuples of entities: items are equal when they are
    the same object or compare equal, and the lengths must agree. *)
Fixpoint tuple_eq (h : heap) (t1 t2 : list ref) : result bool :=
  match t1, t2 with
  | [], [] => Ok true
  | a :: t1', b :: t2' =>
      c ← (if decide (a = b) then Ok true else Entity_eq h a (OBasic (BRef b))) ;
      if c : bool then tuple_eq h t1' t2' else Ok false
  | _, _ => Ok false
  end.

(** [t == a] for a tuple [t] of entities. *)
Definition tuple_eq_basic (h : heap) (t : list ref) (a : basic) : result bool :=
  match a with
  | BTuple t' => tuple_eq h t t'
  | BRef _ => Ok false
  | BVal _ => Ok false
  end.

(** [Path.__eq__(self, other)] *)
Definition Path_eq (h : heap) (self : Path) (other : pyobj) : result bool :=
  except_AttributeError (
    self_start ← Path_start self ;
    other_start ← getattr_start h other ;
    b ← Entity_eq h self_start (OBasic other_start) ;
    if b : bool then
      other_relationships ← getattr_relationships other ;
      tuple_eq_basic h (path_relationships self) other_relationships
    else Ok false).

(** ** Hashing *)

Section hashing.
(** The interpreter's [hash] on identifiers. *)
Variable py_hash : value → Z.

(** [Entity.__hash__]: [hash(self.id)] *)
Definition Entity_hash (h : heap) (self : ref) : Z := py_hash (ref_id h self).

(** [Path.__hash__] *)
Definition Path_hash (h : heap) (self : Path) : result Z :=
  self_start ← Path_start self ;
  Ok (fold_left (λ value relationship, Z.lxor value (Entity_hash h relationship))
        (path_relationships self) (Entity_hash h self_start)).
End hashing.

(** ** Auxiliary notions used in the statements *)

(** A dict entry survives [Entity.__init__] when its value is not [None]. *)
Definition keep_not_None (v : value) : option value :=
  if is_not_None v then Some v else None.

(** The pairs [(relSelector, nodeIndex)] that a sequence encodes. *)
Fixpoint pairs (sequence : list Z) : list (Z * Z) :=
  match sequence with
  | rel_index :: k :: t => (rel_index, k) :: pairs t
  | _ => []
  end.

(** The node that [nodes[k]] selects, and the relationship that a
    selector [rel_index] picks in [rels]; address [0] stands in where the
    index is out of range. *)
Definition node_at (nodes : list loc) (k : Z) : loc :=
  match py_index nodes k with Ok n => n | Raise _ => 0%nat end.

Definition rel_at (rels : list loc) (rel_index : Z) : loc :=
  match py_index rels (Z.abs rel_index - 1) with Ok r => r | Raise _ => 0%nat end.

(** The walk that a sequence encodes: the first node followed by the node
    of every pair, and the relationship of every pair. *)
Definition traversal_nodes (nodes : list loc) (sequence : list Z) : list ref :=
  RNode (node_at nodes 0) :: ((λ p, RNode (node_at nodes p.2)) <$> pairs sequence).

Definition traversal_relationships (rels : list loc) (sequence : list Z)
  : list ref :=
  (λ p, RRel (rel_at rels p.1)) <$> pairs sequence.

(** Valid inputs of [Path.hydrate]: a non-empty node list, a sequence of
    even length, relationship selectors that are not zero and whose
    magnitude is at most [len(rels)], node indices within
    [-len(nodes), len(nodes)). *)
Definition valid_pair (nodes rels : list loc) (p : Z * Z) : bool :=
  negb (p.1 =? 0) && (Z.abs p.1 <=? Z.of_nat (length rels))
  && (- Z.of_nat (length nodes) <=? p.2) && (p.2 <? Z.of_nat (length nodes)).

Definition valid_input (nodes rels : list loc) (sequence : list Z) : bool :=
  (1 <=? Z.of_nat (length nodes))
  && Nat.even (length sequence)
  && forallb (valid_pair nodes rels) (pairs sequence).

(** What a call may change in the store: nothing of any node, of a
    relationship at most [start] and [end], and no relationship outside
    [rels]. *)
Definition frame (rels : list loc) (h h' : heap) : Prop :=
  (∀ l, node_store h' l = node_store h l)
  ∧ (∀ l, rel_id (rel_store h' l) = rel_id (rel_store h l)
        ∧ rel_type (rel_store h' l) = rel_type (rel_store h l)
        ∧ rel_properties (rel_store h' l) = rel_properties (rel_store h l))
  ∧ (∀ l, l ∉ rels → rel_store h' l = rel_store h l).

(** The specification's reading of an entity that exposes a resolvable
    identifier: the [id] attribute exists and has been set, an entity that
    is not yet hydrated having none. *)
Definition spec_resolvable_identifier (h : heap) (o : pyobj) : option value :=
  match getattr_id h o with
  | Ok (BVal v) => keep_not_None v
  | _ => None
  end.

(** The equality contract in the specification's words: equal exactly when
    both sides expose a resolvable identifier and the two are equal. *)
Definition spec_Entity_eq (h : heap) (x : ref) (y : pyobj) : Prop :=
  Entity_eq h x y = Ok true
  ↔ ∃ i, spec_resolvable_identifier h (OBasic (BRef x)) = Some i
         ∧ spec_resolvable_identifier h y = Some i.

(** ** Example objects *)

(** [Node.hydrate(1, {"Person"}, {"name": "Ann", "nickname": None})] *)
Definition ann : Node :=
  Node_hydrate (VInt 1) (Some {[ "Person" ]})
    (Some (<["name" := VStr "Ann"]> (<["nickname" := VNone]> ∅))).

(** A store in which no entity has been hydrated: every node is [Node()]
    and every relationship [Relationship(None, None, None)]. *)
Definition unhydrated : heap :=
  mkHeap (λ _, Node_init None None ∅)
         (λ _, Relationship_init VNone VNone VNone None ∅).

(** A store whose node at address [l] has identifier [l], and whose
    relationship 0 is an unbound [LIKES] and the others unbound [KNOWS]. *)
Definition likes_knows : heap :=
  mkHeap (λ l, Node_hydrate (VInt (Z.of_nat l)) None None)
         (λ l, Relationship_hydrate_unbound (VInt (Z.of_nat l))
                 (VStr (match l with O => "LIKES" | S _ => "KNOWS" end)) None).

(** A store whose node at address [l] has identifier [l], and whose
    relationships are unbound with identifiers from 100. *)
Definition numbered : heap :=
  mkHeap (λ l, Node_hydrate (VInt (Z.of_nat l)) None None)
         (λ l, Relationship_hydrate_unbound (VInt (100 + Z.of_nat l))
                 (VStr "KNOWS") None).

(** ** Further methods *)

(** [Relationship.nodes]: the pair [(self.start, self.end)] *)
Definition Relationship_nodes (self : Relationship) : value * value :=
  (rel_start self, rel_end self).

(** The views of an entity on its properties.  A view is given as the list
    of what it yields; the order in which a dict yields its entries is not
    modelled, the entries come in the order of the map. *)
Section entity_views.
Context {T : Type} `{!Entity T}.

(** [Entity.items] *)
Definition Entity_items (self : T) : list (string * value) :=
  map_to_list (entity_properties self).

(** [Entity.keys] *)
Definition Entity_keys (self : T) : list string := (Entity_items self).*1.

(** [Entity.values] *)
Definition Entity_values (self : T) : list value := (Entity_items self).*2.

(** [Entity.__iter__]: [iter(self.properties)] yields the keys. *)
Definition Entity_iter (self : T) : list string := Entity_keys self.
End entity_views.

(** [Path.__ne__(self, other)] *)
Definition Path_ne (h : heap) (self : Path) (other : pyobj) : result bool :=
  b ← Path_eq h self other ; Ok (negb b).

(** [Path.__iter__]: [iter(self.relationships)] *)
Definition Path_iter (self : Path) : list ref := path_relationships self.

(** ** Further notions used in the statements *)

(** The relationship that a selector picks: [rels[|rel_index| - 1]] for a
    selector that is not zero and whose index is in range, none for the
    selector zero, which the loop refuses, and none where the index is out
    of range. *)
Definition picked (rels : list loc) (rel_index : Z) : option loc :=
  if rel_index =? 0 then None
  else match py_index rels (Z.abs rel_index - 1) with
       | Ok r => Some r
       | Raise _ => None
       end.

(** The relationships that the selectors of a sequence pick. *)
Definition selected (rels : list loc) (sequence : list Z) : list loc :=
  omap (picked rels) (slice_0_2 sequence).

(** The pair [(start, end)] that a traversal with selector [rel_index]
    from the node with identifier [last_id] to the node with identifier
    [next_id] gives a relationship. *)
Definition endpoints (rel_index : Z) (last_id next_id : value) : value * value :=
  if 0 <? rel_index then (last_id, next_id) else (next_id, last_id).

(** The sequence in which every negative node index [k] is replaced by
    [k + n], the index from the front that it stands for in a list of
    length [n]. *)
Fixpoint from_front (n : Z) (sequence : list Z) : list Z :=
  match sequence with
  | rel_index :: k :: t => rel_index :: (if k <? 0 then k + n else k) :: from_front n t
  | _ => sequence
  end.

(** A comparison operand is well formed when, being a path, it has a start
    node, as every constructed path has. *)
Definition well_formed (other : pyobj) : Prop :=
  match other with
  | OPath p => path_nodes p ≠ []
  | _ => True
  end.

(** * Properties *)

(** ** Property access *)

Lemma Entity_init_lookup properties kwproperties (name : string) :
  Entity_init properties kwproperties !! name
  = (kwproperties ∪ default ∅ properties) !! name ≫= keep_not_None.
Proof.
  unfold Entity_init, keep_not_None. rewrite map_lookup_filter.
  destruct ((kwproperties ∪ default ∅ properties) !! name) as [v|]; simpl; [|done].
  by destruct v.
Qed.

Lemma Entity_init_None_as_absent (m kw : gmap string value) (name : string) :
  kw !! name = None →
  Entity_init (Some (<[name := VNone]> m)) kw = Entity_init (Some (delete name m)) kw.
Proof.
  intros Hkw. apply map_eq. intros k. rewrite !Entity_init_lookup. simpl.
  rewrite !lookup_union. destruct (decide (name = k)) as [->|Hne].
  - rewrite lookup_insert_eq, lookup_delete_eq, Hkw. done.
  - by rewrite lookup_insert_ne, lookup_delete_ne.
Qed.

Example ann_properties_eq :
  Entity_init (Some (<["name" := VStr "Ann"]> (<["nickname" := VNone]> ∅))) ∅
  = {[ "name" := VStr "Ann" ]}.
Proof.
  apply map_eq. intros k. rewrite Entity_init_lookup. simpl.
  rewrite lookup_union, lookup_empty, (left_id None _).
  destruct (decide (k = "name")) as [->|Hn].
  { by rewrite lookup_insert_eq, lookup_singleton_eq. }
  rewrite lookup_insert_ne, lookup_singleton_ne by done.
  destruct (decide (k = "nickname")) as [->|Hk].
  { by rewrite lookup_insert_eq. }
  by rewrite lookup_insert_ne, lookup_empty.
Qed.

(** C5: the properties of a constructed entity are the base mapping merged
    with the named overrides, without the entries whose value is [None];
    a key given with value [None] leaves the same node or relationship as
    the key left out, so membership, length and [get] cannot tell them
    apart; and the node of Ann has ["name"], answers the default for
    ["nickname"], and has length 1. *)
Theorem null_property_filtering :
  (∀ properties kwproperties (name : string),
     Entity_init properties kwproperties !! name
     = (kwproperties ∪ default ∅ properties) !! name ≫= keep_not_None)
  ∧ (∀ id_ labels (m : gmap string value) (name : string) (d : value),
       let node := Node_hydrate id_ labels (Some (<[name := VNone]> m)) in
       node = Node_hydrate id_ labels (Some (delete name m))
       ∧ Entity_contains node name = false
       ∧ Entity_get node name d = d
       ∧ Entity_len node = size (filter (λ kv, is_not_None kv.2 = true) (delete name m)))
  ∧ (∀ id_ start end_ type (m : gmap string value) (name : string) (d : value),
       let r := Relationship_hydrate id_ start end_ type (Some (<[name := VNone]> m)) in
       r = Relationship_hydrate id_ start end_ type (Some (delete name m))
       ∧ Entity_contains r name = false
       ∧ Entity_get r name d = d
       ∧ Entity_len r = size (filter (λ kv, is_not_None kv.2 = true) (delete name m)))
  ∧ (Entity_contains ann "name" = true
     ∧ (∀ d, Entity_get ann "nickname" d = d)
     ∧ Entity_len ann = 1%nat).
Proof.
  assert (Hplain : ∀ m : gmap string value,
            Entity_init (Some m) ∅ = filter (λ kv, is_not_None kv.2 = true) m).
  { intros m. unfold Entity_init. simpl. by rewrite (left_id_L ∅ (∪)). }
  assert (Hinit : ∀ (m : gmap string value) name,
            Entity_init (Some (<[name := VNone]> m)) ∅
            = filter (λ kv, is_not_None kv.2 = true) (delete name m)).
  { intros m name. rewrite Entity_init_None_as_absent by apply lookup_empty.
    apply Hplain. }
  assert (Hgone : ∀ (m : gmap string value) name,
            Entity_init (Some (<[name := VNone]> m)) ∅ !! name = None).
  { intros m name. rewrite Hinit, map_filter_delete. apply lookup_delete_eq. }
  split; [exact Entity_init_lookup|].
  split; [|split].
  - intros id_ labels m name d node. subst node.
    unfold Node_hydrate, Node_init, Entity_contains, Entity_get, Entity_len,
      dict_contains, dict_get, dict_len; simpl.
    rewrite Hgone. split; [|split; [|split]].
    + by rewrite Hinit, Hplain.
    + apply bool_decide_eq_false. by intros [? ?].
    + done.
    + by rewrite Hinit.
  - intros id_ start end_ type m name d r. subst r.
    unfold Relationship_hydrate, Relationship_init, Entity_contains, Entity_get,
      Entity_len, dict_contains, dict_get, dict_len; simpl.
    rewrite Hgone. split; [|split; [|split]].
    + by rewrite Hinit, Hplain.
    + apply bool_decide_eq_false. by intros [? ?].
    + done.
    + by rewrite Hinit.
  - unfold ann, Node_hydrate, Node_init, Entity_contains, Entity_get, Entity_len,
      dict_contains, dict_get, dict_len; simpl.
    rewrite ann_properties_eq. split; [|split].
    + by rewrite lookup_singleton_eq.
    + intros d. by rewrite lookup_singleton_ne.
    + apply map_size_singleton.
Qed.

(** C10: subscripting a node or a relationship with any string is
    [get(name)] with the default [None]: the stored value when the key is
    present, [None] when it is not, and never an error. *)
Theorem getitem_absent_is_None :
  (∀ (n : Node) (name : string),
     Entity_getitem n name = Entity_get n name VNone
     ∧ Entity_getitem n name = default VNone (node_properties n !! name))
  ∧ (∀ (r : Relationship) (name : string),
       Entity_getitem r name = Entity_get r name VNone
       ∧ Entity_getitem r name = default VNone (rel_properties r !! name)).
Proof.
  split; intros e name; split; try reflexivity;
    unfold Entity_getitem, dict_get; simpl; by destruct (_ !! name).
Qed.

(** ** Equality of entities *)

Lemma foreign_getattr_cases attrs name :
  (∃ a, foreign_getattr attrs name = Ok a)
  ∨ foreign_getattr attrs name = Raise AttributeError.
Proof. unfold foreign_getattr. destruct (attrs !! name); eauto. Qed.

Lemma getattr_id_cases h y :
  (∃ a, getattr_id h y = Ok a) ∨ getattr_id h y = Raise AttributeError.
Proof.
  destruct y as [[v|x|t]|p|attrs]; simpl; eauto using foreign_getattr_cases.
Qed.

Lemma Entity_eq_unfold h x y :
  Entity_eq h x y
  = Ok (match getattr_id h y with
        | Ok a => value_eq (ref_id h x) a
        | Raise _ => false
        end).
Proof.
  unfold Entity_eq. destruct (getattr_id_cases h y) as [[a ->]| ->]; reflexivity.
Qed.

Lemma Entity_eq_ref h x y :
  Entity_eq h x (OBasic (BRef y)) = Ok (bool_decide (ref_id h x = ref_id h y)).
Proof. reflexivity. Qed.

Lemma Entity_eq_ref_true h x y :
  Entity_eq h x (OBasic (BRef y)) = Ok true ↔ ref_id h x = ref_id h y.
Proof.
  rewrite Entity_eq_ref. split.
  - intros [= Hb]. by apply bool_decide_eq_true in Hb.
  - intros Hid. f_equal. by apply bool_decide_eq_true.
Qed.

Lemma value_eq_true v a : value_eq v a = true ↔ a = BVal v.
Proof.
  destruct a as [w|x|t]; simpl; [|split; discriminate..].
  rewrite bool_decide_eq_true. split; [by intros ->|congruence].
Qed.

(** C4, amended: [x == y] never raises; it is true exactly when [y]
    has an attribute [id] whose value equals [x.id], the identifier of an
    entity that is not hydrated being the value [None], so that two such
    entities are equal; when [y] has no attribute [id] the answer is
    not-equal, as it is for every integer, string and [None]. *)
Theorem Entity_eq_by_id_attribute (h : heap) (x : ref) (y : pyobj) :
  (∃ b, Entity_eq h x y = Ok b)
  ∧ (Entity_eq h x y = Ok true ↔ getattr_id h y = Ok (BVal (ref_id h x)))
  ∧ (getattr_id h y = Raise AttributeError → Entity_eq h x y = Ok false)
  ∧ (∀ v, Entity_eq h x (OBasic (BVal v)) = Ok false)
  ∧ (∃ b, Entity_ne h x y = Ok b ∧ Entity_eq h x y = Ok (negb b))
  ∧ (∀ z : ref, ref_id h x = VNone → ref_id h z = VNone →
       Entity_eq h x (OBasic (BRef z)) = Ok true).
Proof.
  rewrite Entity_eq_unfold. split; [eauto|]. split; [|split; [|split; [|split]]].
  - destruct (getattr_id_cases h y) as [[a ->]| ->].
    + split.
      * intros [= Hv]. apply value_eq_true in Hv. by subst.
      * intros [= ->]. f_equal. by apply value_eq_true.
    + split; discriminate.
  - by intros ->.
  - reflexivity.
  - unfold Entity_ne. rewrite Entity_eq_unfold. simpl.
    eexists. split; [reflexivity|]. by rewrite negb_involutive.
  - intros z Hx Hz. apply Entity_eq_ref_true. congruence.
Qed.

(** Applied to two nodes of the numbered store. *)
Lemma Entity_eq_by_id_attribute_witness :
  getattr_id numbered (OBasic (BRef (RNode 1)))
    = Ok (BVal (ref_id numbered (RNode 1)))
  ∧ Entity_eq numbered (RNode 1) (OBasic (BRef (RNode 1))) = Ok true
  ∧ getattr_id numbered (OBasic (BVal (VInt 1))) = Raise AttributeError
  ∧ Entity_eq numbered (RNode 1) (OBasic (BVal (VInt 1))) = Ok false.
Proof.
  split; [reflexivity|]. split.
  - apply (proj1 (proj2 (Entity_eq_by_id_attribute numbered (RNode 1)
                           (OBasic (BRef (RNode 1)))))).
    reflexivity.
  - split; [reflexivity|].
    apply (proj1 (proj2 (proj2 (Entity_eq_by_id_attribute numbered (RNode 1)
                                  (OBasic (BVal (VInt 1))))))).
    reflexivity.
Defined.

(** C4 as stated fails: two nodes that are not hydrated compare equal,
    although neither has a resolvable identifier. *)
Lemma Entity_eq_unhydrated_equal :
  Entity_eq unhydrated (RNode 0) (OBasic (BRef (RNode 1))) = Ok true
  ∧ spec_resolvable_identifier unhydrated (OBasic (BRef (RNode 0))) = None
  ∧ spec_resolvable_identifier unhydrated (OBasic (BRef (RNode 1))) = None
  ∧ ¬ spec_Entity_eq unhydrated (RNode 0) (OBasic (BRef (RNode 1))).
Proof.
  split; [reflexivity|]. split; [reflexivity|]. split; [reflexivity|].
  intros [Hto _]. destruct (Hto eq_refl) as (i & Hi & _). discriminate Hi.
Qed.

(** ** Equality and hashing of paths *)

Lemma py_index_head {A} (a : A) (l : list A) : py_index (a :: l) 0 = Ok a.
Proof. reflexivity. Qed.

Lemma Path_start_nodes (p : Path) (s : ref) :
  Path_start p = Ok s ↔ ∃ rest, path_nodes p = s :: rest.
Proof.
  unfold Path_start. destruct (path_nodes p) as [|a rest].
  - split; [discriminate|]. by intros [? ?].
  - rewrite py_index_head. split.
    + intros [= ->]. eauto.
    + by intros [? [= -> _]].
Qed.

Lemma Path_init_start (start_node : ref) (rels_and_nodes : list ref) :
  Path_start (Path_init start_node rels_and_nodes) = Ok start_node.
Proof. reflexivity. Qed.

Lemma tuple_eq_spec h (t1 t2 : list ref) :
  tuple_eq h t1 t2
  = Ok (bool_decide (Forall2 (λ a b, ref_id h a = ref_id h b) t1 t2)).
Proof.
  revert t2. induction t1 as [|a t1 IH]; intros [|b t2];
    cbn [tuple_eq mbind result_bind].
  - reflexivity.
  - reflexivity.
  - reflexivity.
  - assert (Hitem : (if decide (a = b) then Ok true
                     else Entity_eq h a (OBasic (BRef b)))
                    = Ok (bool_decide (ref_id h a = ref_id h b))).
    { destruct (decide (a = b)) as [->|_]; [|apply Entity_eq_ref].
      f_equal. symmetry. by apply bool_decide_eq_true. }
    rewrite Hitem. simpl. destruct (decide (ref_id h a = ref_id h b)) as [Hab|Hab].
    + rewrite (bool_decide_eq_true_2 _ Hab), IH. f_equal.
      apply bool_decide_ext. split; [by constructor|by inversion 1].
    + rewrite (bool_decide_eq_false_2 _ Hab). f_equal. symmetry.
      apply bool_decide_eq_false. by inversion 1.
Qed.

Lemma Path_eq_Path h (p q : Path) (s1 s2 : ref) :
  Path_start p = Ok s1 → Path_start q = Ok s2 →
  Path_eq h p (OPath q)
  = Ok (bool_decide (ref_id h s1 = ref_id h s2)
        && bool_decide (Forall2 (λ a b, ref_id h a = ref_id h b)
                          (path_relationships p) (path_relationships q))).
Proof.
  intros Hp Hq. unfold Path_eq. rewrite Hp.
  cbn [mbind result_bind getattr_start]. rewrite Hq.
  cbn [mbind result_bind]. rewrite Entity_eq_ref.
  cbn [mbind result_bind getattr_relationships tuple_eq_basic].
  destruct (bool_decide (ref_id h s1 = ref_id h s2)); [|done].
  by rewrite tuple_eq_spec.
Qed.

Lemma Forall2_Entity_eq h (t1 t2 : list ref) :
  Forall2 (λ a b, Entity_eq h a (OBasic (BRef b)) = Ok true) t1 t2
  ↔ Forall2 (λ a b, ref_id h a = ref_id h b) t1 t2.
Proof. split; apply Forall2_impl; intros a b; by rewrite Entity_eq_ref_true. Qed.

Lemma Path_eq_Path_true h (p q : Path) (s1 s2 : ref) :
  Path_start p = Ok s1 → Path_start q = Ok s2 →
  Path_eq h p (OPath q) = Ok true
  ↔ ref_id h s1 = ref_id h s2
    ∧ Forall2 (λ a b, ref_id h a = ref_id h b)
        (path_relationships p) (path_relationships q).
Proof.
  intros Hp Hq. rewrite (Path_eq_Path h p q s1 s2 Hp Hq). split.
  - intros [= Hb]. apply andb_true_iff in Hb as [H1 H2].
    by rewrite !bool_decide_eq_true in H1, H2.
  - intros [H1 H2]. f_equal. apply andb_true_iff.
    by rewrite !bool_decide_eq_true.
Qed.

(** C6: for paths [p] and [q] with start nodes [s1] and [s2], [p == q] is
    true exactly when [s1 == s2] and the relationship tuples have the same
    length and equal items position by position; the nodes after the start
    node take no part; and [p == other] is not-equal, without an error,
    when [other] has no attribute [start] or no attribute
    [relationships]. *)
Theorem Path_eq_contract (h : heap) (p q : Path) (s1 s2 : ref) :
  Path_start p = Ok s1 → Path_start q = Ok s2 →
  (Path_eq h p (OPath q) = Ok true
   ↔ Entity_eq h s1 (OBasic (BRef s2)) = Ok true
     ∧ Forall2 (λ a b, Entity_eq h a (OBasic (BRef b)) = Ok true)
         (path_relationships p) (path_relationships q))
  ∧ (∃ b, Path_eq h p (OPath q) = Ok b)
  ∧ (∀ nodes1 nodes2,
       Path_eq h (mkPath (s1 :: nodes1) (path_relationships p))
         (OPath (mkPath (s2 :: nodes2) (path_relationships q)))
       = Path_eq h p (OPath q))
  ∧ (∀ other,
       getattr_start h other = Raise AttributeError
       ∨ getattr_relationships other = Raise AttributeError →
       Path_eq h p other = Ok false).
Proof.
  intros Hp Hq. split; [|split; [|split]].
  - rewrite (Path_eq_Path_true h p q s1 s2 Hp Hq), Entity_eq_ref_true.
    by rewrite Forall2_Entity_eq.
  - rewrite (Path_eq_Path h p q s1 s2 Hp Hq). eauto.
  - intros nodes1 nodes2. rewrite (Path_eq_Path h p q s1 s2 Hp Hq).
    by rewrite (Path_eq_Path h _ _ s1 s2).
  - intros other Hother. unfold Path_eq. rewrite Hp. cbn [mbind result_bind].
    destruct Hother as [Hs|Hr]; [by rewrite Hs|].
    destruct (getattr_start h other) as [a|e] eqn:Hs; cbn [mbind result_bind].
    + rewrite Entity_eq_unfold. cbn [mbind result_bind].
      destruct (match getattr_id h (OBasic a) with
                | Ok a0 => value_eq (ref_id h s1) a0
                | Raise _ => false
                end); [|done].
      by rewrite Hr.
    + assert (e = AttributeError) as ->; [|done].
      destruct other as [[v|[l|l]|t]|o|attrs]; simpl in Hs, Hr;
        try discriminate; try (by injection Hs).
      destruct (foreign_getattr_cases attrs "start") as [[a Ha]|Ha];
        rewrite Ha in Hs; [discriminate|]. by injection Hs.
Qed.

(** Applied to the paths 0 -[0]-> 1 and 0 -[0]-> 2 of the numbered store,
    and to the integer 7. *)
Lemma Path_eq_contract_witness :
  let p := Path_init (RNode 0) [RRel 0; RNode 1] in
  let q := Path_init (RNode 0) [RRel 0; RNode 2] in
  Path_start p = Ok (RNode 0) ∧ Path_start q = Ok (RNode 0)
  ∧ Path_eq numbered p (OPath q) = Ok true
  ∧ getattr_start numbered (OBasic (BVal (VInt 7))) = Raise AttributeError
  ∧ Path_eq numbered p (OBasic (BVal (VInt 7))) = Ok false.
Proof.
  intros p q.
  pose proof (Path_eq_contract numbered p q (RNode 0) (RNode 0)
                eq_refl eq_refl) as (Hiff & _ & _ & Hother).
  split; [reflexivity|]. split; [reflexivity|]. split.
  - apply Hiff. split; [reflexivity|]. repeat constructor.
  - split; [reflexivity|]. apply Hother. left. reflexivity.
Defined.

Section path_hash.
Variable py_hash : value → Z.

Lemma Path_hash_xor h (p : Path) (s : ref) :
  Path_start p = Ok s →
  Path_hash py_hash h p
  = Ok (Z.lxor (Entity_hash py_hash h s)
          (foldr Z.lxor 0 (Entity_hash py_hash h <$> path_relationships p))).
Proof.
  intros Hs. unfold Path_hash. rewrite Hs. cbn [mbind result_bind]. f_equal.
  generalize (Entity_hash py_hash h s) as acc.
  induction (path_relationships p) as [|r l IH]; intros acc; simpl.
  - by rewrite Z.lxor_0_r.
  - by rewrite IH, Z.lxor_assoc.
Qed.

Lemma xor_all_Permutation (l l' : list Z) :
  l ≡ₚ l' → foldr Z.lxor 0 l = foldr Z.lxor 0 l'.
Proof.
  induction 1 as [|x l l' _ IH|x y l|l l' l'' _ IH1 _ IH2]; simpl.
  - done.
  - by rewrite IH.
  - by rewrite <- 2!Z.lxor_assoc, (Z.lxor_comm x y).
  - by rewrite IH1.
Qed.

Lemma Entity_hash_same_id h (l l' : list ref) :
  Forall2 (λ a b, ref_id h a = ref_id h b) l l' →
  Entity_hash py_hash h <$> l = Entity_hash py_hash h <$> l'.
Proof.
  induction 1 as [|a b l l' Hab _ IH]; [done|].
  rewrite !fmap_cons, IH. unfold Entity_hash. by rewrite Hab.
Qed.

(** C7: the hash of a path is the exclusive-or of the hash of its start
    node with the hashes of its relationships; two paths with equal
    start nodes whose relationship tuples are permutations of one
    another have the same hash, and so have two equal paths. *)
Theorem Path_hash_order_insensitive (h : heap) (p q : Path) (s1 s2 : ref) :
  Path_start p = Ok s1 → Path_start q = Ok s2 →
  Path_hash py_hash h p
  = Ok (Z.lxor (Entity_hash py_hash h s1)
          (foldr Z.lxor 0 (Entity_hash py_hash h <$> path_relationships p)))
  ∧ (Entity_eq h s1 (OBasic (BRef s2)) = Ok true →
     path_relationships p ≡ₚ path_relationships q →
     Path_hash py_hash h p = Path_hash py_hash h q)
  ∧ (Path_eq h p (OPath q) = Ok true →
     Path_hash py_hash h p = Path_hash py_hash h q).
Proof.
  intros Hp Hq. rewrite (Path_hash_xor h p s1 Hp), (Path_hash_xor h q s2 Hq).
  split; [done|]. split.
  - intros Hstart Hperm. apply Entity_eq_ref_true in Hstart.
    unfold Entity_hash at 1 3. rewrite Hstart.
    rewrite (xor_all_Permutation (_ <$> path_relationships p)
               (Entity_hash py_hash h <$> path_relationships q)); [done|].
    by apply fmap_Permutation.
  - intros Heq. apply (Path_eq_Path_true h p q s1 s2 Hp Hq) in Heq as [Hstart Hrels].
    unfold Entity_hash at 1 3.
    by rewrite Hstart, (Entity_hash_same_id h _ _ Hrels).
Qed.
End path_hash.

(** Applied, with a hash that sends an integer to itself, to the paths
    over relationships 0, 1 and 1, 0 from node 0 of the numbered store. *)
Lemma Path_hash_order_insensitive_witness :
  let py_hash := λ v, match v with VInt z => z | _ => 0 end in
  let p := Path_init (RNode 0) [RRel 0; RNode 1; RRel 1; RNode 2] in
  let q := Path_init (RNode 0) [RRel 1; RNode 1; RRel 0; RNode 2] in
  Path_start p = Ok (RNode 0) ∧ Path_start q = Ok (RNode 0)
  ∧ Entity_eq numbered (RNode 0) (OBasic (BRef (RNode 0))) = Ok true
  ∧ path_relationships p ≡ₚ path_relationships q
  ∧ Path_eq numbered p (OPath p) = Ok true
  ∧ Path_hash py_hash numbered p = Path_hash py_hash numbered q
  ∧ Path_hash py_hash numbered p = Path_hash py_hash numbered p.
Proof.
  intros py_hash p q.
  assert (Hperm : path_relationships p ≡ₚ path_relationships q)
    by apply perm_swap.
  split; [reflexivity|]. split; [reflexivity|]. split; [reflexivity|].
  split; [exact Hperm|]. split; [reflexivity|]. split.
  - apply (proj1 (proj2 (Path_hash_order_insensitive py_hash numbered p q
                           (RNode 0) (RNode 0) eq_refl eq_refl)));
      [reflexivity|exact Hperm].
  - apply (proj2 (proj2 (Path_hash_order_insensitive py_hash numbered p p
                           (RNode 0) (RNode 0) eq_refl eq_refl))).
    reflexivity.
Defined.

(** ** Indexing and slicing *)

Lemma py_index_nat {A} (l : list A) (n : nat) (a : A) :
  l !! n = Some a → py_index l (Z.of_nat n) = Ok a.
Proof.
  intros Hn. pose proof (lookup_lt_Some _ _ _ Hn) as Hlt. unfold py_index.
  destruct (Z.ltb_spec (Z.of_nat n) 0) as [?|_]; [lia|].
  destruct (Z.leb_spec 0 (Z.of_nat n)) as [_|?]; [|lia].
  destruct (Z.ltb_spec (Z.of_nat n) (Z.of_nat (length l))) as [_|?]; [|lia].
  simpl. by rewrite Nat2Z.id, Hn.
Qed.

Lemma py_index_in_range {A} (l : list A) (i : Z) :
  - Z.of_nat (length l) ≤ i < Z.of_nat (length l) → ∃ a, py_index l i = Ok a.
Proof.
  intros Hi. unfold py_index.
  set (j := if i <? 0 then i + Z.of_nat (length l) else i).
  assert (Hj : 0 ≤ j < Z.of_nat (length l)).
  { subst j. destruct (Z.ltb_spec i 0); lia. }
  destruct (Z.leb_spec 0 j) as [_|?]; [|lia].
  destruct (Z.ltb_spec j (Z.of_nat (length l))) as [_|?]; [|lia]. simpl.
  destruct (lookup_lt_is_Some_2 l (Z.to_nat j)) as [a Ha]; [lia|].
  rewrite Ha. eauto.
Qed.

Lemma py_index_elem_of {A} (l : list A) (i : Z) (a : A) :
  py_index l i = Ok a → a ∈ l.
Proof.
  unfold py_index. destruct (_ && _); [|discriminate].
  destruct (l !! _) as [b|] eqn:Hb; [|discriminate].
  intros [= <-]. by eapply list_elem_of_lookup_2.
Qed.

Lemma py_index_Raise {A} (l : list A) (i : Z) (e : exn) :
  py_index l i = Raise e → e = IndexError.
Proof.
  unfold py_index. destruct (_ && _); [|congruence].
  destruct (l !! _); [discriminate|congruence].
Qed.

Lemma py_index_last {A} (l : list A) (a : A) :
  list.last l = Some a → py_index l (-1) = Ok a.
Proof.
  intros Hlast. rewrite last_lookup in Hlast.
  pose proof (lookup_lt_Some _ _ _ Hlast) as Hlt.
  unfold py_index. change (-1 <? 0) with true. cbv iota zeta.
  destruct (Z.leb_spec 0 (-1 + Z.of_nat (length l))) as [_|?]; [|lia].
  destruct (Z.ltb_spec (-1 + Z.of_nat (length l)) (Z.of_nat (length l)))
    as [_|?]; [|lia].
  cbn [andb].
  replace (Z.to_nat (-1 + Z.of_nat (length l))) with (pred (length l)) by lia.
  by rewrite Hlast.
Qed.

Lemma list_pair_ind {A} (P : list A → Prop) :
  P [] → (∀ a, P [a]) → (∀ a b l, P l → P (a :: b :: l)) → ∀ l, P l.
Proof.
  intros Hnil Hone Hstep l.
  cut (P l ∧ ∀ a, P (a :: l)); [tauto|].
  induction l as [|b l [IH1 IH2]]; [by split|].
  split; [apply IH2|]. intros a. by apply Hstep.
Qed.

Lemma slice_0_2_alternate {A B} (f g : B → A) (l : list B) :
  slice_0_2 (flat_map (λ p, [f p; g p]) l) = f <$> l.
Proof. induction l as [|p l IH]; simpl; [done|]. by rewrite IH. Qed.

Lemma slice_1_2_cons_cons {A} (a b : A) (l : list A) :
  slice_1_2 (a :: b :: l) = b :: slice_1_2 l.
Proof. by destruct l. Qed.

Lemma slice_1_2_alternate {A B} (f g : B → A) (l : list B) :
  slice_1_2 (flat_map (λ p, [f p; g p]) l) = g <$> l.
Proof.
  induction l as [|p l IH]; [done|].
  cbn [flat_map app]. by rewrite slice_1_2_cons_cons, IH.
Qed.

Lemma pairs_length (sequence : list Z) :
  Nat.even (length sequence) = true →
  length sequence = (2 * length (pairs sequence))%nat.
Proof.
  induction sequence as [| a | a b l IH] using list_pair_ind; simpl;
    [done|discriminate|].
  intros He. rewrite (IH He). lia.
Qed.

(** ** One iteration of the decompression loop *)

Lemma hydrate_body_run nodes rels sequence st (i : nat) (rel_index : Z) h :
  hydrate_body nodes rels sequence st (i, rel_index) h
  = if rel_index =? 0 then (Raise AssertionError, h) else
    match py_index sequence (2 * Z.of_nat i + 1) with
    | Raise e => (Raise e, h)
    | Ok k =>
        match py_index nodes k with
        | Raise e => (Raise e, h)
        | Ok next_node =>
            match py_index rels (Z.abs rel_index - 1) with
            | Raise e => (Raise e, h)
            | Ok r =>
                let a := node_id (node_store h (last_node st)) in
                let b := node_id (node_store h next_node) in
                (Ok (mkLoop next_node (entities st ++ [RRel r; RNode next_node])),
                 mkHeap (node_store h)
                   (alter (set_end (if 0 <? rel_index then b else a)) r
                      (alter (set_start (if 0 <? rel_index then a else b)) r
                         (rel_store h))))
            end
        end
    end.
Proof.
  unfold hydrate_body, assert_, lift, node_get_id, rel_set_start, rel_set_end,
    mbind, M_bind, mret, M_ret.
  destruct (Z.eqb_spec rel_index 0) as [->|Hnz]; [reflexivity|]. simpl.
  destruct (py_index sequence _) as [k|e]; [|reflexivity].
  destruct (py_index nodes k) as [next_node|e]; [|reflexivity].
  destruct (Z.ltb_spec 0 rel_index) as [Hpos|Hneg].
  - replace (Z.abs rel_index - 1) with (rel_index - 1) by lia.
    by destruct (py_index rels _).
  - replace (Z.abs rel_index - 1) with (- rel_index - 1) by lia.
    by destruct (py_index rels _).
Qed.

Lemma frame_refl rels h : frame rels h h.
Proof. by repeat split. Qed.

Lemma frame_trans rels h1 h2 h3 :
  frame rels h1 h2 → frame rels h2 h3 → frame rels h1 h3.
Proof.
  intros (Hn & Hf & Ho) (Hn' & Hf' & Ho'). split; [|split].
  - intros l. by rewrite Hn'.
  - intros l. destruct (Hf l) as (? & ? & ?), (Hf' l) as (? & ? & ?).
    repeat split; congruence.
  - intros l Hl. by rewrite Ho', Ho.
Qed.

Lemma frame_assign rels h (r : loc) (v w : value) :
  r ∈ rels →
  frame rels h
    (mkHeap (node_store h)
       (alter (set_end w) r (alter (set_start v) r (rel_store h)))).
Proof.
  intros Hr. split; [done|]. split; simpl.
  - intros l. destruct (decide (r = l)) as [->|Hne].
    + by rewrite !fn_lookup_alter.
    + by rewrite !fn_lookup_alter_ne.
  - intros l Hl. rewrite !fn_lookup_alter_ne; [done|congruence..].
Qed.

Lemma hydrate_body_frame nodes rels sequence st item h res h' :
  hydrate_body nodes rels sequence st item h = (res, h') → frame rels h h'.
Proof.
  destruct item as [i rel_index]. rewrite hydrate_body_run.
  destruct (rel_index =? 0); [intros [= _ <-]; apply frame_refl|].
  destruct (py_index sequence _) as [k|e]; [|intros [= _ <-]; apply frame_refl].
  destruct (py_index nodes k) as [n|e]; [|intros [= _ <-]; apply frame_refl].
  destruct (py_index rels _) as [r|e] eqn:Hr; [|intros [= _ <-]; apply frame_refl].
  intros [= _ <-]. apply frame_assign. by eapply py_index_elem_of.
Qed.

Lemma hydrate_body_Raise nodes rels sequence st item h e h' :
  hydrate_body nodes rels sequence st item h = (Raise e, h') →
  e = AssertionError ∨ e = IndexError.
Proof.
  destruct item as [i rel_index]. rewrite hydrate_body_run.
  destruct (rel_index =? 0); [intros [= <- _]; by left|].
  destruct (py_index sequence _) as [k|e1] eqn:H1;
    [|intros [= <- _]; right; by eapply py_index_Raise].
  destruct (py_index nodes k) as [n|e2] eqn:H2;
    [|intros [= <- _]; right; by eapply py_index_Raise].
  destruct (py_index rels _) as [r|e3] eqn:H3;
    [discriminate|intros [= <- _]; right; by eapply py_index_Raise].
Qed.

(** ** The decompression loop *)

Lemma hydrate_loop_cons nodes rels sequence item items st h :
  hydrate_loop nodes rels sequence (item :: items) st h
  = match hydrate_body nodes rels sequence st item h with
    | (Ok st', h') => hydrate_loop nodes rels sequence items st' h'
    | (Raise e, h') => (Raise e, h')
    end.
Proof. reflexivity. Qed.

Lemma hydrate_loop_frame nodes rels sequence items st h res h' :
  hydrate_loop nodes rels sequence items st h = (res, h') → frame rels h h'.
Proof.
  revert st h. induction items as [|item items IH]; intros st h.
  { intros [= _ <-]. apply frame_refl. }
  rewrite hydrate_loop_cons.
  destruct (hydrate_body nodes rels sequence st item h) as [[st1|e] h1] eqn:Hb.
  - intros Hl. eapply frame_trans; [by eapply hydrate_body_frame|by eapply IH].
  - intros [= _ <-]. by eapply hydrate_body_frame.
Qed.

Lemma hydrate_loop_Raise nodes rels sequence items st h e h' :
  hydrate_loop nodes rels sequence items st h = (Raise e, h') →
  e = AssertionError ∨ e = IndexError.
Proof.
  revert st h. induction items as [|item items IH]; intros st h; [discriminate|].
  rewrite hydrate_loop_cons.
  destruct (hydrate_body nodes rels sequence st item h) as [[st1|e1] h1] eqn:Hb.
  - apply IH.
  - intros [= <- _]. by eapply hydrate_body_Raise.
Qed.

Lemma hydrate_loop_zero nodes rels sequence items st h (i : nat) :
  (i, 0) ∈ items →
  ∃ e h', hydrate_loop nodes rels sequence items st h = (Raise e, h').
Proof.
  revert st h. induction items as [|item items IH]; intros st h Hin.
  { by apply elem_of_nil in Hin. }
  rewrite hydrate_loop_cons. apply elem_of_cons in Hin as [<-|Hin].
  - rewrite hydrate_body_run. simpl. eauto.
  - destruct (hydrate_body nodes rels sequence st item h) as [[st1|e1] h1]; eauto.
Qed.

Lemma enumerate_from_lookup {A} (l : list A) (n i : nat) (a : A) :
  l !! i = Some a → ((n + i)%nat, a) ∈ enumerate_from n l.
Proof.
  revert n i. induction l as [|x l IH]; intros n [|i]; simpl; try discriminate.
  - intros [= ->]. rewrite Nat.add_0_r. apply list_elem_of_here.
  - intros Hi. apply list_elem_of_further.
    replace (n + S i)%nat with (S n + i)%nat by lia. by apply IH.
Qed.

Lemma slice_0_2_lookup {A} (l : list A) (i : nat) :
  slice_0_2 l !! i = l !! (2 * i)%nat.
Proof.
  revert i. induction l as [| a | a b l IH] using list_pair_ind; intros i.
  - done.
  - by destruct i as [|[|i]].
  - destruct i as [|i]; [done|]. cbn [slice_0_2].
    replace (2 * S i)%nat with (S (S (2 * i))) by lia. apply IH.
Qed.

Lemma even_length_mod (n : nat) :
  (Z.of_nat n mod 2 =? 0) = Nat.even n.
Proof.
  destruct (Nat.even n) eqn:He.
  - apply Nat.even_spec in He as [m ->]. apply Z.eqb_eq.
    replace (Z.of_nat (2 * m)) with (Z.of_nat m * 2) by lia. apply Z_mod_mult.
  - apply Z.eqb_neq. rewrite <- Nat.negb_odd in He.
    apply negb_false_iff, Nat.odd_spec in He as [m ->].
    replace (Z.of_nat (2 * m + 1)) with (1 + Z.of_nat m * 2) by lia.
    by rewrite Z_mod_plus_full.
Qed.

Lemma Path_hydrate_run nodes rels sequence h :
  Path_hydrate nodes rels sequence h
  = if negb (1 <=? Z.of_nat (length nodes)) then (Raise AssertionError, h) else
    if negb (Nat.even (length sequence)) then (Raise AssertionError, h) else
    match py_index nodes 0 with
    | Raise e => (Raise e, h)
    | Ok n0 =>
        match hydrate_loop nodes rels sequence (enumerate (slice_0_2 sequence))
                (mkLoop n0 [RNode n0]) h with
        | (Ok st, h') => (Path_new (entities st), h')
        | (Raise e, h') => (Raise e, h')
        end
    end.
Proof.
  unfold Path_hydrate, assert_, lift, mbind, M_bind. rewrite even_length_mod.
  destruct (1 <=? _); [|reflexivity]. destruct (Nat.even _); [|reflexivity].
  simpl. destruct (py_index nodes 0) as [n0|e]; [|reflexivity].
  by destruct (hydrate_loop _ _ _ _ _ _) as [[st|e] h'].
Qed.

Lemma hydrate_loop_valid nodes rels sequence (suffix : list Z) :
  ∀ (prefix : list Z) (k : nat) st h,
    sequence = prefix ++ suffix →
    length prefix = (2 * k)%nat →
    Nat.even (length suffix) = true →
    forallb (valid_pair nodes rels) (pairs suffix) = true →
    ∃ st' h',
      hydrate_loop nodes rels sequence (enumerate_from k (slice_0_2 suffix)) st h
      = (Ok st', h')
      ∧ entities st'
        = entities st
          ++ flat_map (λ p, [RRel (rel_at rels p.1); RNode (node_at nodes p.2)])
               (pairs suffix).
Proof.
  induction suffix as [| a | a b l IH] using list_pair_ind;
    intros prefix k st h Hseq Hlen Hev Hval.
  - exists st, h. split; [reflexivity|]. simpl. by rewrite app_nil_r.
  - discriminate Hev.
  - cbn [pairs forallb] in Hval. apply andb_true_iff in Hval as [Hab Hval].
    unfold valid_pair in Hab. simpl in Hab.
    apply andb_true_iff in Hab as [Hab Hb2].
    apply andb_true_iff in Hab as [Hab Hb1].
    apply andb_true_iff in Hab as [Ha1 Ha2].
    apply negb_true_iff in Ha1.
    apply Z.leb_le in Ha2, Hb1. apply Z.ltb_lt in Hb2.
    pose proof (proj1 (Z.eqb_neq _ _) Ha1) as Hnz.
    cbn [slice_0_2 enumerate_from]. rewrite hydrate_loop_cons, hydrate_body_run, Ha1.
    assert (Hk : py_index sequence (2 * Z.of_nat k + 1) = Ok b).
    { replace (2 * Z.of_nat k + 1) with (Z.of_nat (2 * k + 1)) by lia.
      apply py_index_nat. rewrite Hseq, lookup_app_r by lia.
      by replace (2 * k + 1 - length prefix)%nat with 1%nat by lia. }
    rewrite Hk.
    destruct (py_index_in_range nodes b) as [n Hn]; [lia|].
    destruct (py_index_in_range rels (Z.abs a - 1)) as [r Hr]; [lia|].
    rewrite Hn, Hr. cbv zeta.
    edestruct (IH (prefix ++ [a; b]) (S k)) as (st' & h' & Hrun & Hent);
      [by rewrite Hseq, <- app_assoc|rewrite length_app; simpl; lia|exact Hev
      |exact Hval|].
    exists st', h'. split; [exact Hrun|]. rewrite Hent. cbn [entities pairs flat_map].
    unfold rel_at, node_at. cbn [fst snd]. rewrite Hn, Hr.
    by rewrite <- !app_assoc.
Qed.

Lemma Path_hydrate_valid nodes rels sequence h :
  valid_input nodes rels sequence = true →
  ∃ h', Path_hydrate nodes rels sequence h
        = (Ok (mkPath (traversal_nodes nodes sequence)
                 (traversal_relationships rels sequence)), h')
        ∧ frame rels h h'.
Proof.
  intros Hvalid. unfold valid_input in Hvalid.
  apply andb_true_iff in Hvalid as [Hvalid Hpairs].
  apply andb_true_iff in Hvalid as [Hnodes Heven].
  rewrite Path_hydrate_run, Hnodes, Heven. simpl.
  destruct (py_index_in_range nodes 0) as [n0 Hn0]; [apply Z.leb_le in Hnodes; lia|].
  rewrite Hn0.
  destruct (hydrate_loop_valid nodes rels sequence sequence [] 0
              (mkLoop n0 [RNode n0]) h eq_refl eq_refl Heven Hpairs)
    as (st' & h' & Hrun & Hent).
  unfold enumerate. rewrite Hrun. exists h'. split.
  - rewrite Hent. cbn [entities app Path_new]. unfold Path_init.
    rewrite slice_0_2_alternate, slice_1_2_alternate.
    unfold traversal_nodes, traversal_relationships, node_at. by rewrite Hn0.
  - by eapply hydrate_loop_frame.
Qed.

(** ** Path decompression *)

(** C3: [Path.hydrate] raises, and returns no path, when the node list is
    empty, when the sequence has odd length, or when an entry at an even
    position of the sequence is zero.  In the first two cases the failure
    is the assertion at the start, before anything is written to a
    relationship; in the third it is an assertion or an index error. *)
Theorem Path_hydrate_precondition (nodes rels : list loc) (sequence : list Z)
    (h : heap) :
  (nodes = [] →
   Path_hydrate nodes rels sequence h = (Raise AssertionError, h))
  ∧ (Nat.odd (length sequence) = true →
     Path_hydrate nodes rels sequence h = (Raise AssertionError, h))
  ∧ (∀ i : nat, sequence !! (2 * i)%nat = Some 0 →
     ∃ e h', Path_hydrate nodes rels sequence h = (Raise e, h')
             ∧ (e = AssertionError ∨ e = IndexError)).
Proof.
  rewrite Path_hydrate_run. split; [|split].
  - by intros ->.
  - intros Hodd. rewrite <- Nat.negb_odd, Hodd. simpl.
    by destruct (negb _).
  - intros i Hi. destruct (negb (1 <=? _)); [eauto|].
    destruct (negb (Nat.even _)); [eauto|].
    destruct (py_index nodes 0) as [n0|e] eqn:Hn0;
      [|apply py_index_Raise in Hn0; eauto].
    rewrite <- slice_0_2_lookup in Hi.
    apply (enumerate_from_lookup _ 0) in Hi. fold (enumerate (slice_0_2 sequence)) in Hi.
    destruct (hydrate_loop_zero nodes rels sequence _ (mkLoop n0 [RNode n0]) h _ Hi)
      as (e & h' & Hrun).
    rewrite Hrun. exists e, h'. split; [done|]. by eapply hydrate_loop_Raise.
Qed.

(** Applied to no nodes, to the sequence [1], and to the sequence [0, 1]. *)
Lemma Path_hydrate_precondition_witness :
  Path_hydrate [] [0%nat] [1; 0] numbered = (Raise AssertionError, numbered)
  ∧ (Nat.odd (length [1]) = true
     ∧ Path_hydrate [0; 1]%nat [0%nat] [1] numbered
       = (Raise AssertionError, numbered))
  ∧ ([0; 1] !! (2 * 0)%nat = Some 0
     ∧ ∃ e h', Path_hydrate [0; 1]%nat [0%nat] [0; 1] numbered = (Raise e, h')
               ∧ (e = AssertionError ∨ e = IndexError)).
Proof.
  split; [|split].
  - apply (proj1 (Path_hydrate_precondition [] [0%nat] [1; 0] numbered)).
    reflexivity.
  - split; [reflexivity|].
    apply (proj1 (proj2 (Path_hydrate_precondition [0; 1]%nat [0%nat] [1] numbered))).
    reflexivity.
  - split; [reflexivity|].
    apply (proj2 (proj2 (Path_hydrate_precondition [0; 1]%nat [0%nat] [0; 1] numbered))
             0%nat).
    reflexivity.
Defined.

(** C8: on valid inputs [Path.hydrate] returns a path with one node more
    than relationships, whose length is the number of relationships (half
    the length of the sequence), whose nodes and relationships are those of
    the walk in order, whose start is the first node and whose end is the
    last node of the walk. *)
Theorem Path_shape (nodes rels : list loc) (sequence : list Z) (h : heap) :
  valid_input nodes rels sequence = true →
  ∃ p h', Path_hydrate nodes rels sequence h = (Ok p, h')
    ∧ length (path_nodes p) = S (length (path_relationships p))
    ∧ Path_len p = length (path_relationships p)
    ∧ length sequence = (2 * Path_len p)%nat
    ∧ path_nodes p = traversal_nodes nodes sequence
    ∧ path_relationships p = traversal_relationships rels sequence
    ∧ py_index nodes 0 = Ok (node_at nodes 0)
    ∧ Path_start p = Ok (RNode (node_at nodes 0))
    ∧ ∃ e, list.last (traversal_nodes nodes sequence) = Some e
           ∧ Path_end p = Ok e.
Proof.
  intros Hvalid.
  destruct (Path_hydrate_valid nodes rels sequence h Hvalid) as (h' & Hrun & _).
  unfold valid_input in Hvalid.
  apply andb_true_iff in Hvalid as [Hvalid _].
  apply andb_true_iff in Hvalid as [Hnodes Heven]. apply Z.leb_le in Hnodes.
  eexists _, h'. split; [exact Hrun|]. unfold Path_len. cbn [path_nodes path_relationships].
  unfold traversal_nodes, traversal_relationships.
  split; [by rewrite length_cons, !length_fmap|]. split; [done|].
  split; [by rewrite length_fmap, <- pairs_length|]. split; [done|]. split; [done|].
  split.
  { unfold node_at. by destruct (py_index_in_range nodes 0) as [n0 ->]; [lia|]. }
  split; [done|].
  destruct (list.last (RNode (node_at nodes 0)
              :: ((λ p, RNode (node_at nodes p.2)) <$> pairs sequence)))
    as [e|] eqn:Hlast; [|by apply last_None in Hlast].
  exists e. split; [done|]. by apply py_index_last.
Qed.

(** Applied to three nodes, two relationships and the sequence
    [1, 1, -2, 2]. *)
Lemma Path_shape_witness :
  valid_input [0; 1; 2]%nat [0; 1]%nat [1; 1; -2; 2] = true
  ∧ ∃ p h', Path_hydrate [0; 1; 2]%nat [0; 1]%nat [1; 1; -2; 2] numbered = (Ok p, h')
      ∧ length (path_nodes p) = S (length (path_relationships p))
      ∧ Path_len p = 2%nat
      ∧ Path_start p = Ok (RNode 0)
      ∧ Path_end p = Ok (RNode 2).
Proof.
  split; [reflexivity|].
  destruct (Path_shape [0; 1; 2]%nat [0; 1]%nat [1; 1; -2; 2] numbered eq_refl)
    as (p & h' & Hrun & Hlen & _ & Hseq & Hnodes & _ & _ & Hstart & e & He & Hend).
  exists p, h'. split; [exact Hrun|]. split; [exact Hlen|].
  split; [simpl in Hseq; lia|]. split; [exact Hstart|].
  rewrite Hend. f_equal. by injection He as <-.
Defined.

(** C9: whatever its outcome, a call of [Path.hydrate] leaves every node
    object as it was, leaves [id], [type] and [properties] of every
    relationship as they were, and leaves the relationships outside [rels]
    untouched; on valid inputs it returns a path.  The node list, the
    relationship list and the sequence are only read: indexed, sliced and
    measured. *)
Theorem Path_hydrate_frame (nodes rels : list loc) (sequence : list Z) (h : heap) :
  (∀ res h', Path_hydrate nodes rels sequence h = (res, h') → frame rels h h')
  ∧ (valid_input nodes rels sequence = true →
     ∃ p h', Path_hydrate nodes rels sequence h = (Ok p, h')
       ∧ (∀ l, node_store h' l = node_store h l)
       ∧ (∀ l, rel_id (rel_store h' l) = rel_id (rel_store h l)
             ∧ rel_type (rel_store h' l) = rel_type (rel_store h l)
             ∧ rel_properties (rel_store h' l) = rel_properties (rel_store h l))
       ∧ (∀ l, l ∉ rels → rel_store h' l = rel_store h l)).
Proof.
  split.
  - intros res h'. rewrite Path_hydrate_run.
    destruct (negb (1 <=? _)); [intros [= _ <-]; apply frame_refl|].
    destruct (negb (Nat.even _)); [intros [= _ <-]; apply frame_refl|].
    destruct (py_index nodes 0) as [n0|e]; [|intros [= _ <-]; apply frame_refl].
    destruct (hydrate_loop _ _ _ _ _ _) as [[st|e] h1] eqn:Hloop;
      intros [= _ <-]; by eapply hydrate_loop_frame.
  - intros Hvalid.
    destruct (Path_hydrate_valid nodes rels sequence h Hvalid) as (h' & Hrun & Hframe).
    eexists _, h'. split; [exact Hrun|exact Hframe].
Qed.

(** Applied to three nodes, two relationships and the sequence
    [1, 1, -2, 2]; relationship 5 is not among [rels]. *)
Lemma Path_hydrate_frame_witness :
  valid_input [0; 1; 2]%nat [0; 1]%nat [1; 1; -2; 2] = true
  ∧ ∃ p h', Path_hydrate [0; 1; 2]%nat [0; 1]%nat [1; 1; -2; 2] numbered = (Ok p, h')
      ∧ node_store h' 1%nat = node_store numbered 1%nat
      ∧ rel_id (rel_store h' 1%nat) = rel_id (rel_store numbered 1%nat)
      ∧ rel_store h' 5%nat = rel_store numbered 5%nat.
Proof.
  split; [reflexivity|].
  destruct (proj2 (Path_hydrate_frame [0; 1; 2]%nat [0; 1]%nat [1; 1; -2; 2] numbered)
              eq_refl) as (p & h' & Hrun & Hn & Hr & Ho).
  exists p, h'. split; [exact Hrun|]. split; [apply Hn|]. split; [apply Hr|].
  apply Ho. intros Hin. by repeat (apply elem_of_cons in Hin as [?|Hin]; [lia|]);
    apply elem_of_nil in Hin.
Defined.

(** C1: for nodes [A, B, C], two distinct unbound relationships [R1, R2]
    and the sequence [1, 1, 2, 2], [Path.hydrate] returns the path with
    nodes (A, B, C) and relationships (R1, R2), of length 2, starting at A
    and ending at C, and leaves R1 from A to B and R2 from B to C. *)
Theorem forward_decompression (h : heap) (A B C R1 R2 : loc) :
  R1 ≠ R2 →
  ∃ p h', Path_hydrate [A; B; C] [R1; R2] [1; 1; 2; 2] h = (Ok p, h')
    ∧ path_nodes p = [RNode A; RNode B; RNode C]
    ∧ path_relationships p = [RRel R1; RRel R2]
    ∧ rel_start (rel_store h' R1) = node_id (node_store h' A)
    ∧ rel_end (rel_store h' R1) = node_id (node_store h' B)
    ∧ rel_start (rel_store h' R2) = node_id (node_store h' B)
    ∧ rel_end (rel_store h' R2) = node_id (node_store h' C)
    ∧ Path_len p = 2%nat
    ∧ Path_start p = Ok (RNode A)
    ∧ Path_end p = Ok (RNode C).
Proof.
  intros Hne. eexists _, _. split; [reflexivity|].
  cbn [rel_store node_store].
  rewrite (fn_lookup_alter_ne _ _ R2 R1), (fn_lookup_alter_ne _ _ R2 R1) by done.
  rewrite !fn_lookup_alter. by repeat split.
Qed.

(** Applied to nodes with identifiers 0, 1, 2 and the relationships
    [LIKES] and [KNOWS]. *)
Lemma forward_decompression_witness :
  0%nat ≠ 1%nat
  ∧ ∃ p h',
      Path_hydrate [0; 1; 2]%nat [0; 1]%nat [1; 1; 2; 2] likes_knows = (Ok p, h')
      ∧ path_nodes p = [RNode 0; RNode 1; RNode 2]
      ∧ path_relationships p = [RRel 0; RRel 1]
      ∧ rel_start (rel_store h' 0%nat) = VInt 0
      ∧ rel_end (rel_store h' 0%nat) = VInt 1
      ∧ rel_start (rel_store h' 1%nat) = VInt 1
      ∧ rel_end (rel_store h' 1%nat) = VInt 2
      ∧ Path_len p = 2%nat
      ∧ Path_start p = Ok (RNode 0)
      ∧ Path_end p = Ok (RNode 2).
Proof.
  assert (Hne : 0%nat ≠ 1%nat) by discriminate.
  split; [exact Hne|].
  destruct (forward_decompression likes_knows 0 1 2 0 1 Hne)
    as (p & h' & Hrun & Hn & Hr & H1 & H2 & H3 & H4 & Hlen & Hs & He).
  injection Hrun as Hp Hh.
  exists p, h'. split; [by rewrite <- Hp, <- Hh|].
  split; [exact Hn|]. split; [exact Hr|].
  split; [by rewrite H1, <- Hh|]. split; [by rewrite H2, <- Hh|].
  split; [by rewrite H3, <- Hh|]. split; [by rewrite H4, <- Hh|].
  split; [exact Hlen|]. split; [exact Hs|exact He].
Defined.

Lemma hydrate_loop_app nodes rels sequence items1 items2 st h :
  hydrate_loop nodes rels sequence (items1 ++ items2) st h
  = match hydrate_loop nodes rels sequence items1 st h with
    | (Ok st', h') => hydrate_loop nodes rels sequence items2 st' h'
    | (Raise e, h') => (Raise e, h')
    end.
Proof.
  revert st h. induction items1 as [|item items1 IH]; intros st h; [done|].
  cbn [app]. rewrite !hydrate_loop_cons.
  destruct (hydrate_body nodes rels sequence st item h) as [[st1|e] h1]; [|done].
  apply IH.
Qed.

Lemma enumerate_from_lookup_Some {A} (l : list A) (n j : nat) (a : A) :
  l !! j = Some a → enumerate_from n l !! j = Some ((n + j)%nat, a).
Proof.
  revert n j. induction l as [|x l IH]; intros n [|j]; simpl; try discriminate.
  - intros [= ->]. by rewrite Nat.add_0_r.
  - intros Hj. replace (n + S j)%nat with (S n + j)%nat by lia. by apply IH.
Qed.

Lemma pairs_lookup (sequence : list Z) (j : nat) (rel_index k : Z) :
  pairs sequence !! j = Some (rel_index, k) →
  sequence !! (2 * j)%nat = Some rel_index
  ∧ sequence !! (2 * j + 1)%nat = Some k.
Proof.
  revert j. induction sequence as [| a | a b l IH] using list_pair_ind;
    intros j; [done..|].
  destruct j as [|j]; simpl.
  - by intros [= -> ->].
  - intros Hj. replace (j + S (j + 0))%nat with (S (2 * j)) by lia.
    replace (j + S (j + 0) + 1)%nat with (S (2 * j + 1)) by lia.
    by apply IH.
Qed.

Lemma valid_pair_lookups nodes rels (rel_index k : Z) :
  valid_pair nodes rels (rel_index, k) = true →
  rel_index ≠ 0
  ∧ py_index nodes k = Ok (node_at nodes k)
  ∧ py_index rels (Z.abs rel_index - 1) = Ok (rel_at rels rel_index).
Proof.
  unfold valid_pair. simpl. intros Hv.
  apply andb_true_iff in Hv as [Hv Hk2]. apply andb_true_iff in Hv as [Hv Hk1].
  apply andb_true_iff in Hv as [Hnz Hr]. apply negb_true_iff, Z.eqb_neq in Hnz.
  apply Z.leb_le in Hr, Hk1. apply Z.ltb_lt in Hk2.
  split; [done|]. unfold node_at, rel_at. split.
  - by destruct (py_index_in_range nodes k) as [n ->]; [lia|].
  - by destruct (py_index_in_range rels (Z.abs rel_index - 1)) as [r ->]; [lia|].
Qed.

Lemma hydrate_loop_reaches nodes rels sequence h (j : nat) (rel_index k : Z) :
  valid_input nodes rels sequence = true →
  pairs sequence !! j = Some (rel_index, k) →
  let items := enumerate (slice_0_2 sequence) in
  let n0 := node_at nodes 0 in
  ∃ st h1 st2 h2,
    items !! j = Some (j, rel_index)
    ∧ hydrate_loop nodes rels sequence (take j items) (mkLoop n0 [RNode n0]) h
      = (Ok st, h1)
    ∧ hydrate_body nodes rels sequence st (j, rel_index) h1 = (Ok st2, h2)
    ∧ py_index sequence (2 * Z.of_nat j + 1) = Ok k
    ∧ py_index nodes k = Ok (node_at nodes k)
    ∧ py_index rels (Z.abs rel_index - 1) = Ok (rel_at rels rel_index).
Proof.
  intros Hvalid Hj items n0. pose proof Hvalid as Hv. unfold valid_input in Hv.
  apply andb_true_iff in Hv as [Hv Hpairs]. apply andb_true_iff in Hv as [_ Heven].
  destruct (pairs_lookup _ _ _ _ Hj) as [Hsel Hk].
  assert (Hitem : items !! j = Some (j, rel_index)).
  { subst items. unfold enumerate.
    apply (enumerate_from_lookup_Some _ 0). by rewrite slice_0_2_lookup. }
  rewrite forallb_forall in Hpairs.
  destruct (valid_pair_lookups nodes rels rel_index k) as (Hnz & Hn & Hr).
  { apply Hpairs. apply list_elem_of_In. by eapply list_elem_of_lookup_2. }
  assert (Hseq : py_index sequence (2 * Z.of_nat j + 1) = Ok k).
  { replace (2 * Z.of_nat j + 1) with (Z.of_nat (2 * j + 1)) by lia.
    by apply py_index_nat. }
  destruct (hydrate_loop_valid nodes rels sequence sequence [] 0
              (mkLoop n0 [RNode n0]) h eq_refl eq_refl Heven)
    as (st' & h' & Hrun & _).
  { apply forallb_forall. exact Hpairs. }
  fold (enumerate (slice_0_2 sequence)) in Hrun. fold items in Hrun.
  rewrite <- (take_drop_middle items j _ Hitem), hydrate_loop_app in Hrun.
  destruct (hydrate_loop nodes rels sequence (take j items) _ h)
    as [[st|e] h1]; [|discriminate].
  rewrite hydrate_loop_cons in Hrun.
  destruct (hydrate_body nodes rels sequence st (j, rel_index) h1)
    as [[st2|e] h2] eqn:Hbody; [|discriminate].
  by exists st, h1, st2, h2.
Qed.

(** * Further properties *)

(** ** Outcomes of the decompression *)

Lemma py_index_Ok_range {A} (l : list A) (i : Z) (a : A) :
  py_index l i = Ok a → - Z.of_nat (length l) ≤ i < Z.of_nat (length l).
Proof.
  unfold py_index. set (n := Z.of_nat (length l)).
  destruct (Z.ltb_spec i 0).
  - destruct (Z.leb_spec 0 (i + n)); [|discriminate].
    destruct (Z.ltb_spec (i + n) n); [|discriminate]. lia.
  - destruct (Z.leb_spec 0 i); [|discriminate].
    destruct (Z.ltb_spec i n); [|discriminate]. lia.
Qed.

Lemma hydrate_body_Ok nodes rels sequence st (i : nat) (rel_index : Z) h st' h' :
  hydrate_body nodes rels sequence st (i, rel_index) h = (Ok st', h') →
  ∃ k next_node r,
    rel_index ≠ 0
    ∧ py_index sequence (2 * Z.of_nat i + 1) = Ok k
    ∧ py_index nodes k = Ok next_node
    ∧ py_index rels (Z.abs rel_index - 1) = Ok r
    ∧ st' = mkLoop next_node (entities st ++ [RRel r; RNode next_node])
    ∧ h' = mkHeap (node_store h)
             (alter (set_end (if 0 <? rel_index
                              then node_id (node_store h next_node)
                              else node_id (node_store h (last_node st)))) r
                (alter (set_start (if 0 <? rel_index
                                   then node_id (node_store h (last_node st))
                                   else node_id (node_store h next_node))) r
                   (rel_store h))).
Proof.
  rewrite hydrate_body_run.
  destruct (Z.eqb_spec rel_index 0) as [|Hnz]; [discriminate|].
  destruct (py_index sequence _) as [k|e] eqn:Hk; [|discriminate].
  destruct (py_index nodes k) as [n|e] eqn:Hn; [|discriminate].
  destruct (py_index rels _) as [r|e] eqn:Hr; [|discriminate].
  cbv zeta. intros [= <- <-]. by exists k, n, r.
Qed.

Lemma hydrate_loop_Ok_valid nodes rels sequence (suffix : list Z) :
  ∀ (prefix : list Z) (k : nat) st h st' h',
    sequence = prefix ++ suffix →
    length prefix = (2 * k)%nat →
    Nat.even (length suffix) = true →
    hydrate_loop nodes rels sequence (enumerate_from k (slice_0_2 suffix)) st h
    = (Ok st', h') →
    forallb (valid_pair nodes rels) (pairs suffix) = true.
Proof.
  induction suffix as [| a | a b l IH] using list_pair_ind;
    intros prefix k st h st' h' Hseq Hlen Hev Hrun; [done|discriminate|].
  cbn [slice_0_2 enumerate_from] in Hrun. rewrite hydrate_loop_cons in Hrun.
  destruct (hydrate_body nodes rels sequence st (k, a) h) as [[st1|e] h1] eqn:Hb;
    [|discriminate].
  apply hydrate_body_Ok in Hb as (k' & n & r & Hnz & Hk & Hn & Hr & _ & _).
  assert (Hk' : py_index sequence (2 * Z.of_nat k + 1) = Ok b).
  { replace (2 * Z.of_nat k + 1) with (Z.of_nat (2 * k + 1)) by lia.
    apply py_index_nat. rewrite Hseq, lookup_app_r by lia.
    by replace (2 * k + 1 - length prefix)%nat with 1%nat by lia. }
  rewrite Hk' in Hk. injection Hk as <-.
  apply py_index_Ok_range in Hn, Hr.
  cbn [pairs forallb]. apply andb_true_iff. split.
  - unfold valid_pair. cbn [fst snd]. repeat (apply andb_true_iff; split).
    + by apply negb_true_iff, Z.eqb_neq.
    + apply Z.leb_le. lia.
    + apply Z.leb_le. lia.
    + apply Z.ltb_lt. lia.
  - eapply (IH (prefix ++ [a; b]) (S k)); [| |exact Hev|exact Hrun].
    + by rewrite Hseq, <- app_assoc.
    + rewrite length_app. simpl. lia.
Qed.

Lemma hydrate_loop_entities nodes rels sequence items st h st' h' :
  hydrate_loop nodes rels sequence items st h = (Ok st', h') →
  ∃ l, entities st' = entities st ++ l.
Proof.
  revert st h. induction items as [|[i a] items IH]; intros st h.
  { intros [= <- _]. exists []. by rewrite app_nil_r. }
  rewrite hydrate_loop_cons.
  destruct (hydrate_body nodes rels sequence st (i, a) h) as [[st1|e] h1] eqn:Hb;
    [|discriminate].
  apply hydrate_body_Ok in Hb as (k & n & r & _ & _ & _ & _ & -> & _).
  intros Hrun. destruct (IH _ _ Hrun) as [l Hl]. cbn [entities] in Hl.
  eexists. by rewrite Hl, <- app_assoc.
Qed.

Lemma Path_hydrate_Ok_valid nodes rels sequence h p h' :
  Path_hydrate nodes rels sequence h = (Ok p, h') →
  valid_input nodes rels sequence = true.
Proof.
  rewrite Path_hydrate_run. unfold valid_input.
  destruct (1 <=? _); [|discriminate]. destruct (Nat.even _) eqn:Hev; [|discriminate].
  simpl. destruct (py_index nodes 0) as [n0|e]; [|discriminate].
  destruct (hydrate_loop _ _ _ _ _ _) as [[st|e] h1] eqn:Hrun; [|discriminate].
  intros _. by eapply (hydrate_loop_Ok_valid nodes rels sequence sequence [] 0).
Qed.

Lemma Path_hydrate_Ok_path nodes rels sequence h p h' :
  Path_hydrate nodes rels sequence h = (Ok p, h') →
  p = mkPath (traversal_nodes nodes sequence)
        (traversal_relationships rels sequence).
Proof.
  intros Hrun. pose proof (Path_hydrate_Ok_valid _ _ _ _ _ _ Hrun) as Hvalid.
  destruct (Path_hydrate_valid nodes rels sequence h Hvalid) as (h1 & Hrun1 & _).
  congruence.
Qed.

(** X1: [Path.hydrate] returns a path exactly on the valid inputs; on every
    other input it raises an assertion error or an index error, and no
    other exception. *)
Theorem Path_hydrate_Ok_iff_valid (nodes rels : list loc) (sequence : list Z)
    (h : heap) :
  ((∃ p h', Path_hydrate nodes rels sequence h = (Ok p, h'))
   ↔ valid_input nodes rels sequence = true)
  ∧ (∀ e h', Path_hydrate nodes rels sequence h = (Raise e, h') →
       valid_input nodes rels sequence = false
       ∧ (e = AssertionError ∨ e = IndexError)).
Proof.
  split; [split|].
  - intros (p & h' & Hrun). by eapply Path_hydrate_Ok_valid.
  - intros Hvalid.
    destruct (Path_hydrate_valid nodes rels sequence h Hvalid) as (h' & Hrun & _).
    eauto.
  - intros e h' Hrun. split.
    + destruct (valid_input nodes rels sequence) eqn:Hvalid; [|done].
      destruct (Path_hydrate_valid nodes rels sequence h Hvalid) as (h1 & Hrun1 & _).
      congruence.
    + revert Hrun. rewrite Path_hydrate_run.
      destruct (negb (1 <=? _)); [intros [= <- _]; by left|].
      destruct (negb (Nat.even _)); [intros [= <- _]; by left|].
      destruct (py_index nodes 0) as [n0|e0] eqn:Hn0;
        [|intros [= <- _]; right; by eapply py_index_Raise].
      destruct (hydrate_loop _ _ _ _ _ _) as [[st|e1] h1] eqn:Hloop.
      * apply hydrate_loop_entities in Hloop as [l Hl]. rewrite Hl. discriminate.
      * intros [= <- _]. by eapply hydrate_loop_Raise.
Qed.

(** Applied to a valid call and to a call whose node index is out of range. *)
Lemma Path_hydrate_Ok_iff_valid_witness :
  valid_input [0; 1]%nat [0%nat] [1; -1] = true
  ∧ (∃ p h', Path_hydrate [0; 1]%nat [0%nat] [1; -1] numbered = (Ok p, h'))
  ∧ Path_hydrate [0; 1]%nat [0%nat] [1; 2] numbered = (Raise IndexError, numbered)
  ∧ valid_input [0; 1]%nat [0%nat] [1; 2] = false.
Proof.
  split; [reflexivity|]. split.
  - apply (proj1 (Path_hydrate_Ok_iff_valid [0; 1]%nat [0%nat] [1; -1] numbered)).
    reflexivity.
  - split; [reflexivity|].
    apply (proj2 (Path_hydrate_Ok_iff_valid [0; 1]%nat [0%nat] [1; 2] numbered)
             IndexError numbered).
    reflexivity.
Defined.

(** ** Effect of the decompression on the relationships *)

Lemma hydrate_loop_endpoints nodes rels sequence (suffix : list Z) :
  ∀ (prefix : list Z) (k0 : nat) st h,
    sequence = prefix ++ suffix →
    length prefix = (2 * k0)%nat →
    Nat.even (length suffix) = true →
    forallb (valid_pair nodes rels) (pairs suffix) = true →
    ∃ st' h',
      hydrate_loop nodes rels sequence (enumerate_from k0 (slice_0_2 suffix)) st h
      = (Ok st', h')
      ∧ (∀ l, node_store h' l = node_store h l)
      ∧ (∀ l, l ∉ (λ p, rel_at rels p.1) <$> pairs suffix →
              rel_store h' l = rel_store h l)
      ∧ ∀ (j : nat) (sel k : Z) (last : loc),
          pairs suffix !! j = Some (sel, k) →
          (last_node st :: ((λ p, node_at nodes p.2) <$> pairs suffix)) !! j
          = Some last →
          (∀ (j' : nat) (sel' k' : Z),
             (j < j')%nat → pairs suffix !! j' = Some (sel', k') →
             rel_at rels sel' ≠ rel_at rels sel) →
          Relationship_nodes (rel_store h' (rel_at rels sel))
          = endpoints sel (node_id (node_store h last))
              (node_id (node_store h (node_at nodes k))).
Proof.
  induction suffix as [| a | a b l IH] using list_pair_ind;
    intros prefix k0 st h Hseq Hlen Hev Hval.
  - exists st, h. split; [reflexivity|]. split; [done|]. split; [done|].
    intros j sel k last Hj. by destruct j.
  - discriminate Hev.
  - cbn [pairs forallb] in Hval. apply andb_true_iff in Hval as [Hab Hval].
    destruct (valid_pair_lookups nodes rels a b Hab) as (Hnz & Hn & Hr).
    assert (Hk : py_index sequence (2 * Z.of_nat k0 + 1) = Ok b).
    { replace (2 * Z.of_nat k0 + 1) with (Z.of_nat (2 * k0 + 1)) by lia.
      apply py_index_nat. rewrite Hseq, lookup_app_r by lia.
      by replace (2 * k0 + 1 - length prefix)%nat with 1%nat by lia. }
    cbn [slice_0_2 enumerate_from]. rewrite hydrate_loop_cons, hydrate_body_run.
    rewrite (proj2 (Z.eqb_neq _ _) Hnz), Hk, Hn, Hr. cbv beta iota zeta.
    match goal with
    | |- context [hydrate_loop _ _ _ _ ?st1 ?h1] =>
        destruct (IH (prefix ++ [a; b]) (S k0) st1 h1)
          as (st' & h' & Hrun & Hns & Hfr & Hend);
          [by rewrite Hseq, <- app_assoc|rewrite length_app; simpl; lia
          |exact Hev|exact Hval|]
    end.
    exists st', h'. split; [exact Hrun|]. cbn [node_store rel_store] in *.
    split; [exact Hns|]. split.
    + intros x Hx. cbn [pairs fmap list_fmap fst] in Hx.
      apply not_elem_of_cons in Hx as [Hne Hx].
      rewrite (Hfr x Hx). by rewrite !fn_lookup_alter_ne.
    + intros [|j] sel k last Hj Hlast Hlater.
      * cbn [pairs] in Hj. injection Hj as <- <-. injection Hlast as <-.
        rewrite Hfr.
        { rewrite !fn_lookup_alter. unfold Relationship_nodes, endpoints.
          by destruct (0 <? a). }
        intros Hin. apply list_elem_of_fmap in Hin as ([sel' k'] & Heq & Hin).
        apply list_elem_of_lookup in Hin as [j' Hj'].
        apply (Hlater (S j') sel' k'); [lia|exact Hj'|by symmetry].
      * apply (Hend j sel k last Hj Hlast).
        intros j' sel' k' Hlt Hj'. apply (Hlater (S j') sel' k'); [lia|exact Hj'].
Qed.

(** X2: on a valid input, the pair [(rel_index, k)] at position [j] of the
    sequence leaves its relationship with the endpoints of its traversal,
    from [last], the node the walk has reached, to [nodes[k]]: forward when
    [rel_index] is positive, backward when it is negative; this holds for
    the last pair that selects the relationship, an earlier selection of
    the same object being overwritten. *)
Theorem Path_hydrate_endpoints (nodes rels : list loc) (sequence : list Z)
    (h : heap) (j : nat) (rel_index k : Z) (last : loc) :
  valid_input nodes rels sequence = true →
  pairs sequence !! j = Some (rel_index, k) →
  traversal_nodes nodes sequence !! j = Some (RNode last) →
  (∀ (j' : nat) (sel' k' : Z),
     (j < j')%nat → pairs sequence !! j' = Some (sel', k') →
     rel_at rels sel' ≠ rel_at rels rel_index) →
  ∃ p h',
    Path_hydrate nodes rels sequence h = (Ok p, h')
    ∧ path_relationships p !! j = Some (RRel (rel_at rels rel_index))
    ∧ py_index rels (Z.abs rel_index - 1) = Ok (rel_at rels rel_index)
    ∧ py_index nodes k = Ok (node_at nodes k)
    ∧ Relationship_nodes (rel_store h' (rel_at rels rel_index))
      = endpoints rel_index (node_id (node_store h' last))
          (node_id (node_store h' (node_at nodes k))).
Proof.
  intros Hvalid Hj Hlast Hlater.
  destruct (Path_hydrate_valid nodes rels sequence h Hvalid) as (h1 & Hrun1 & _).
  exists (mkPath (traversal_nodes nodes sequence)
            (traversal_relationships rels sequence)).
  pose proof Hvalid as Hv. unfold valid_input in Hv.
  apply andb_true_iff in Hv as [Hv Hpairs]. apply andb_true_iff in Hv as [Hnodes Heven].
  pose proof Hrun1 as Hrun. rewrite Path_hydrate_run, Hnodes, Heven in Hrun. simpl in Hrun.
  destruct (py_index_in_range nodes 0) as [n0 Hn0]; [apply Z.leb_le in Hnodes; lia|].
  rewrite Hn0 in Hrun.
  destruct (hydrate_loop_endpoints nodes rels sequence sequence [] 0
              (mkLoop n0 [RNode n0]) h eq_refl eq_refl Heven Hpairs)
    as (st' & h' & Hloop & Hns & _ & Hend).
  unfold enumerate in Hrun. rewrite Hloop in Hrun. injection Hrun as _ Hh.
  exists h'. split; [by rewrite Hrun1, Hh|].
  assert (Hpair : valid_pair nodes rels (rel_index, k) = true).
  { rewrite forallb_forall in Hpairs. apply Hpairs. apply list_elem_of_In.
    exact (list_elem_of_lookup_2 _ _ _ Hj). }
  destruct (valid_pair_lookups nodes rels rel_index k Hpair) as (_ & Hn & Hr).
  split; [|split; [exact Hr|split; [exact Hn|]]].
  - cbn [path_relationships]. unfold traversal_relationships.
    by rewrite list_lookup_fmap, Hj.
  - rewrite !Hns. apply (Hend j rel_index k last); [exact Hj| |exact Hlater].
    unfold traversal_nodes in Hlast. unfold node_at in Hlast at 1.
    rewrite Hn0 in Hlast. cbn [last_node].
    assert (Hwalk : RNode n0 :: ((λ p, RNode (node_at nodes p.2)) <$> pairs sequence)
                    = RNode <$> (n0 :: ((λ p, node_at nodes p.2) <$> pairs sequence))).
    { rewrite fmap_cons. f_equal. by rewrite <- list_fmap_compose. }
    rewrite Hwalk, list_lookup_fmap in Hlast.
    destruct ((n0 :: _) !! j) as [x|]; [|discriminate].
    simpl in Hlast. by injection Hlast as ->.
Qed.

(** Applied to the walk 0 -> 1 <- 2 over the numbered store: the second
    pair, with selector -2, leaves relationship 1 from node 2 to node 1. *)
Lemma Path_hydrate_endpoints_witness :
  valid_input [0; 1; 2]%nat [0; 1]%nat [1; 1; -2; 2] = true
  ∧ pairs [1; 1; -2; 2] !! 1%nat = Some (-2, 2)
  ∧ traversal_nodes [0; 1; 2]%nat [1; 1; -2; 2] !! 1%nat = Some (RNode 1)
  ∧ ∃ p h',
      Path_hydrate [0; 1; 2]%nat [0; 1]%nat [1; 1; -2; 2] numbered = (Ok p, h')
      ∧ Relationship_nodes (rel_store h' 1%nat)
        = (node_id (node_store h' 2%nat), node_id (node_store h' 1%nat)).
Proof.
  split; [reflexivity|]. split; [reflexivity|]. split; [reflexivity|].
  destruct (Path_hydrate_endpoints [0; 1; 2]%nat [0; 1]%nat [1; 1; -2; 2] numbered
              1%nat (-2) 2 1%nat eq_refl eq_refl eq_refl)
    as (p & h' & Hrun & _ & _ & _ & Hend).
  { intros [|[|j']] sel' k' Hlt Hj'; [lia..|]. discriminate Hj'. }
  exists p, h'. split; [exact Hrun|exact Hend].
Defined.

Lemma hydrate_loop_unselected nodes rels sequence items st h res h' (l : loc) :
  hydrate_loop nodes rels sequence items st h = (res, h') →
  l ∉ (λ it, rel_at rels it.2) <$> items →
  rel_store h' l = rel_store h l.
Proof.
  revert st h. induction items as [|[i a] items IH]; intros st h.
  { by intros [= _ <-]. }
  rewrite hydrate_loop_cons, fmap_cons. intros Hrun Hl.
  apply not_elem_of_cons in Hl as [Hne Hl]. cbn [snd] in Hne.
  destruct (hydrate_body nodes rels sequence st (i, a) h) as [[st1|e] h1] eqn:Hb.
  - rewrite (IH _ _ Hrun Hl).
    apply hydrate_body_Ok in Hb as (k & n & r & _ & _ & _ & Hr & _ & ->).
    unfold rel_at in Hne. rewrite Hr in Hne. cbn [rel_store].
    by rewrite !fn_lookup_alter_ne.
  - injection Hrun as _ <-. revert Hb. rewrite hydrate_body_run.
    destruct (a =? 0); [by intros [= _ <-]|].
    destruct (py_index sequence _) as [k|e1]; [|by intros [= _ <-]].
    destruct (py_index nodes k) as [n|e2]; [|by intros [= _ <-]].
    destruct (py_index rels _) as [r|e3]; [discriminate|by intros [= _ <-]].
Qed.

Lemma hydrate_loop_unpicked nodes rels sequence items st h res h' (l : loc) :
  hydrate_loop nodes rels sequence items st h = (res, h') →
  l ∉ omap (λ it, picked rels it.2) items →
  rel_store h' l = rel_store h l.
Proof.
  revert st h. induction items as [|[i a] items IH]; intros st h.
  { by intros [= _ <-]. }
  rewrite hydrate_loop_cons. intros Hrun Hl.
  assert (Hrest : l ∉ omap (λ it, picked rels it.2) items).
  { intros Hin. apply Hl. cbn [omap list_omap]. cbn [snd].
    destruct (picked rels a); [by apply list_elem_of_further|done]. }
  destruct (hydrate_body nodes rels sequence st (i, a) h) as [[st1|e] h1] eqn:Hb.
  - rewrite (IH _ _ Hrun Hrest).
    apply hydrate_body_Ok in Hb as (k & n & r & Hnz & _ & _ & Hr & _ & ->).
    assert (Hne : r ≠ l).
    { intros ->. apply Hl. cbn [omap list_omap]. cbn [snd]. unfold picked.
      rewrite (proj2 (Z.eqb_neq _ _) Hnz), Hr. apply list_elem_of_here. }
    cbn [rel_store]. by rewrite !fn_lookup_alter_ne.
  - injection Hrun as _ <-. revert Hb. rewrite hydrate_body_run.
    destruct (a =? 0); [by intros [= _ <-]|].
    destruct (py_index sequence _) as [k|e1]; [|by intros [= _ <-]].
    destruct (py_index nodes k) as [n|e2]; [|by intros [= _ <-]].
    destruct (py_index rels _) as [r|e3]; [discriminate|by intros [= _ <-]].
Qed.

Lemma enumerate_from_omap {A B} (f : A → option B) (n : nat) (l : list A) :
  omap (λ it, f it.2) (enumerate_from n l) = omap f l.
Proof.
  revert n. induction l as [|x l IH]; intros n; [done|].
  cbn [enumerate_from omap list_omap snd]. by rewrite IH.
Qed.

(** X3: whatever the outcome of [Path.hydrate], a relationship that no
    selector of the sequence picks is left as it was, [start] and [end]
    included, also when it is an element of [rels]; a selector that is
    zero or out of range picks nothing. *)
Theorem Path_hydrate_unselected (nodes rels : list loc) (sequence : list Z)
    (h : heap) (res : result Path) (h' : heap) (l : loc) :
  Path_hydrate nodes rels sequence h = (res, h') →
  l ∉ selected rels sequence →
  rel_store h' l = rel_store h l.
Proof.
  rewrite Path_hydrate_run. unfold selected. intros Hrun Hl.
  destruct (negb (1 <=? _)); [by injection Hrun as _ <-|].
  destruct (negb (Nat.even _)); [by injection Hrun as _ <-|].
  destruct (py_index nodes 0) as [n0|e]; [|by injection Hrun as _ <-].
  destruct (hydrate_loop _ _ _ _ _ _) as [[st|e] h1] eqn:Hloop;
    injection Hrun as _ <-;
    apply (hydrate_loop_unpicked _ _ _ _ _ _ _ _ l Hloop);
    unfold enumerate; by rewrite enumerate_from_omap.
Qed.

(** Applied to a call that fails at its second pair, whose selector 7 is
    out of range: the first selector picks relationship 1, and
    relationship 0, although an element of [rels], is untouched. *)
Lemma Path_hydrate_unselected_witness :
  selected [0; 1]%nat [2; 0; 7; 0] = [1%nat]
  ∧ ∃ res h',
      Path_hydrate [0; 1]%nat [0; 1]%nat [2; 0; 7; 0] numbered = (res, h')
      ∧ (0%nat ∉ selected [0; 1]%nat [2; 0; 7; 0])
      ∧ rel_store h' 0%nat = rel_store numbered 0%nat.
Proof.
  split; [reflexivity|]. eexists _, _. split; [reflexivity|].
  assert (Hl : 0%nat ∉ selected [0; 1]%nat [2; 0; 7; 0]).
  { intros Hin. apply elem_of_cons in Hin as [Hin|Hin]; [discriminate Hin|].
    by apply elem_of_nil in Hin. }
  split; [exact Hl|].
  exact (Path_hydrate_unselected [0; 1]%nat [0; 1]%nat [2; 0; 7; 0] numbered
           _ _ 0%nat eq_refl Hl).
Defined.

Lemma hydrate_body_result nodes rels sequence st item h1 h2 :
  (hydrate_body nodes rels sequence st item h1).1
  = (hydrate_body nodes rels sequence st item h2).1.
Proof.
  destruct item as [i a]. rewrite !hydrate_body_run.
  destruct (a =? 0); [done|]. destruct (py_index sequence _) as [k|e]; [|done].
  destruct (py_index nodes k) as [n|e]; [|done].
  by destruct (py_index rels _) as [r|e].
Qed.

Lemma hydrate_loop_result nodes rels sequence items st h1 h2 :
  (hydrate_loop nodes rels sequence items st h1).1
  = (hydrate_loop nodes rels sequence items st h2).1.
Proof.
  revert st h1 h2. induction items as [|item items IH]; intros st h1 h2; [done|].
  rewrite !hydrate_loop_cons.
  pose proof (hydrate_body_result nodes rels sequence st item h1 h2) as Hb.
  destruct (hydrate_body nodes rels sequence st item h1) as [[st1|e1] h1'],
    (hydrate_body nodes rels sequence st item h2) as [[st2|e2] h2'];
    simpl in Hb; try discriminate.
  - injection Hb as <-. apply IH.
  - done.
Qed.

(** X4: whether [Path.hydrate] returns or raises, and the path or the
    exception it ends with, depend on the node list, the relationship list
    and the sequence only, not on the identifiers, endpoints or properties
    that the objects hold. *)
Theorem Path_hydrate_result_independent (nodes rels : list loc)
    (sequence : list Z) (h1 h2 : heap) :
  (Path_hydrate nodes rels sequence h1).1 = (Path_hydrate nodes rels sequence h2).1.
Proof.
  rewrite !Path_hydrate_run.
  destruct (negb (1 <=? _)); [done|]. destruct (negb (Nat.even _)); [done|].
  destruct (py_index nodes 0) as [n0|e]; [|done].
  pose proof (hydrate_loop_result nodes rels sequence
                (enumerate (slice_0_2 sequence)) (mkLoop n0 [RNode n0]) h1 h2) as Hl.
  destruct (hydrate_loop _ _ _ _ _ h1) as [[st1|e1] h1'],
    (hydrate_loop _ _ _ _ _ h2) as [[st2|e2] h2']; simpl in Hl; try discriminate.
  - by injection Hl as <-.
  - simpl. congruence.
Qed.

(** X5: for an empty sequence and a non-empty node list, whatever [rels]
    is, [Path.hydrate] returns the path that consists of the first node
    alone, of length 0, starting and ending at that node, and writes
    nothing. *)
Theorem Path_hydrate_empty_sequence (n0 : loc) (nodes rels : list loc) (h : heap) :
  ∃ p, Path_hydrate (n0 :: nodes) rels [] h = (Ok p, h)
    ∧ path_nodes p = [RNode n0]
    ∧ path_relationships p = []
    ∧ Path_len p = 0%nat
    ∧ Path_start p = Ok (RNode n0)
    ∧ Path_end p = Ok (RNode n0).
Proof.
  exists (mkPath [RNode n0] []). split; [|by repeat split].
  rewrite Path_hydrate_run.
  destruct (Z.leb_spec 1 (Z.of_nat (length (n0 :: nodes)))) as [_|Hlt];
    [|simpl in Hlt; lia].
  by rewrite py_index_head.
Qed.

(** X6: a path that [Path.hydrate] returns holds the objects it was given
    and no copies: each of its nodes is an element of [nodes] and each of
    its relationships an element of [rels]. *)
Theorem Path_hydrate_shares_objects (nodes rels : list loc) (sequence : list Z)
    (h : heap) (p : Path) (h' : heap) :
  Path_hydrate nodes rels sequence h = (Ok p, h') →
  Forall (λ x, ∃ n, x = RNode n ∧ n ∈ nodes) (path_nodes p)
  ∧ Forall (λ x, ∃ r, x = RRel r ∧ r ∈ rels) (path_relationships p).
Proof.
  intros Hrun. pose proof (Path_hydrate_Ok_valid _ _ _ _ _ _ Hrun) as Hvalid.
  rewrite (Path_hydrate_Ok_path _ _ _ _ _ _ Hrun). cbn [path_nodes path_relationships].
  unfold valid_input in Hvalid.
  apply andb_true_iff in Hvalid as [Hvalid Hpairs].
  apply andb_true_iff in Hvalid as [Hnodes _]. apply Z.leb_le in Hnodes.
  rewrite forallb_forall in Hpairs.
  assert (Hpair : ∀ q, In q (pairs sequence) →
            node_at nodes q.2 ∈ nodes ∧ rel_at rels q.1 ∈ rels).
  { intros [a b] Hq. pose proof (Hpairs _ Hq) as Hv.
    destruct (valid_pair_lookups nodes rels a b Hv) as (_ & Hn & Hr).
    split; by eapply py_index_elem_of. }
  split.
  - unfold traversal_nodes. constructor.
    + eexists. split; [reflexivity|]. unfold node_at.
      destruct (py_index_in_range nodes 0) as [n0 Hn0]; [lia|].
      rewrite Hn0. by eapply py_index_elem_of.
    + apply Forall_fmap, Forall_forall. intros q Hq.
      destruct (Hpair q Hq) as [Hn _]. by exists (node_at nodes q.2).
  - unfold traversal_relationships. apply Forall_fmap, Forall_forall.
    intros q Hq. destruct (Hpair q Hq) as [_ Hr]. by exists (rel_at rels q.1).
Qed.

(** Applied to a walk that visits node 1 twice. *)
Lemma Path_hydrate_shares_objects_witness :
  ∃ p h',
    Path_hydrate [0; 1]%nat [0; 1]%nat [1; 1; -2; 1] numbered = (Ok p, h')
    ∧ Forall (λ x, ∃ n, x = RNode n ∧ n ∈ [0; 1]%nat) (path_nodes p)
    ∧ Forall (λ x, ∃ r, x = RRel r ∧ r ∈ [0; 1]%nat) (path_relationships p).
Proof.
  eexists _, _. split; [reflexivity|].
  exact (Path_hydrate_shares_objects [0; 1]%nat [0; 1]%nat [1; 1; -2; 1] numbered
           _ _ eq_refl).
Defined.

(** X7: traversing a relationship forward from node [a] to node [b] and
    traversing it backward from [b] to [a] leave the same store: the
    selector [-rel_index] with the roles of the two nodes exchanged writes
    what [rel_index] writes. *)
Theorem direction_symmetry (h : heap) (nodes rels : list loc)
    (sequence1 sequence2 : list Z) (st1 st2 : loop_state) (i1 i2 : nat)
    (rel_index k1 k2 : Z) (a b : loc) :
  0 < rel_index →
  last_node st1 = a →
  py_index sequence1 (2 * Z.of_nat i1 + 1) = Ok k1 → py_index nodes k1 = Ok b →
  last_node st2 = b →
  py_index sequence2 (2 * Z.of_nat i2 + 1) = Ok k2 → py_index nodes k2 = Ok a →
  (hydrate_body nodes rels sequence1 st1 (i1, rel_index) h).2
  = (hydrate_body nodes rels sequence2 st2 (i2, - rel_index) h).2.
Proof.
  intros Hpos Ha Hk1 Hb1 Hb Hk2 Ha2. rewrite !hydrate_body_run.
  rewrite Hk1, Hb1, Hk2, Ha2, Ha, Hb, Z.abs_opp.
  destruct (Z.eqb_spec rel_index 0) as [?|_]; [lia|].
  destruct (Z.eqb_spec (- rel_index) 0) as [?|_]; [lia|].
  destruct (py_index rels _) as [r|e]; [|done]. cbv zeta.
  destruct (Z.ltb_spec 0 rel_index) as [_|?]; [|lia].
  by destruct (Z.ltb_spec 0 (- rel_index)) as [?|_]; [lia|].
Qed.

(** Applied to relationship 0 between nodes 0 and 1 of the numbered store. *)
Lemma direction_symmetry_witness :
  0 < 1
  ∧ py_index [1; 1] (2 * Z.of_nat 0 + 1) = Ok 1
  ∧ py_index [0; 1]%nat 1 = Ok 1%nat
  ∧ py_index [-1; 0] (2 * Z.of_nat 0 + 1) = Ok 0
  ∧ py_index [0; 1]%nat 0 = Ok 0%nat
  ∧ (hydrate_body [0; 1]%nat [0%nat] [1; 1] (mkLoop 0 [RNode 0]) (0%nat, 1)
       numbered).2
    = (hydrate_body [0; 1]%nat [0%nat] [-1; 0] (mkLoop 1 [RNode 1]) (0%nat, -1)
         numbered).2.
Proof.
  split; [lia|]. repeat (split; [reflexivity|]).
  exact (direction_symmetry numbered [0; 1]%nat [0%nat] [1; 1] [-1; 0]
           (mkLoop 0 [RNode 0]) (mkLoop 1 [RNode 1]) 0%nat 0%nat 1 1 0 0%nat 1%nat
           ltac:(lia) eq_refl eq_refl eq_refl eq_refl eq_refl eq_refl).
Defined.

(** ** Equality as a relation *)

(** X8: on nodes and relationships [==] is an equivalence relation that
    looks at the identifier alone: every entity equals itself, also one
    that is not hydrated; the comparison is symmetric and transitive; a
    node and a relationship with the same identifier are equal; and equal
    entities have the same hash. *)
Theorem Entity_eq_equivalence (py_hash : value → Z) (h : heap) (x y z : ref)
    (a b : loc) :
  Entity_eq h x (OBasic (BRef x)) = Ok true
  ∧ Entity_eq h x (OBasic (BRef y)) = Entity_eq h y (OBasic (BRef x))
  ∧ (Entity_eq h x (OBasic (BRef y)) = Ok true →
     Entity_eq h y (OBasic (BRef z)) = Ok true →
     Entity_eq h x (OBasic (BRef z)) = Ok true)
  ∧ (Entity_eq h x (OBasic (BRef y)) = Ok true →
     Entity_hash py_hash h x = Entity_hash py_hash h y)
  ∧ (Entity_eq h (RNode a) (OBasic (BRef (RRel b))) = Ok true
     ↔ node_id (node_store h a) = rel_id (rel_store h b)).
Proof.
  split; [by apply Entity_eq_ref_true|]. split; [|split; [|split]].
  - rewrite !Entity_eq_ref. f_equal. apply bool_decide_ext. split; congruence.
  - rewrite !Entity_eq_ref_true. congruence.
  - rewrite Entity_eq_ref_true. unfold Entity_hash. by intros ->.
  - apply Entity_eq_ref_true.
Qed.

(** Applied to node 3 and the relationship with the same identifier in the
    store of LIKES and KNOWS. *)
Lemma Entity_eq_equivalence_witness :
  let py_hash := λ v, match v with VInt z => z | _ => 0 end in
  Entity_eq likes_knows (RNode 3) (OBasic (BRef (RRel 3))) = Ok true
  ∧ Entity_eq likes_knows (RRel 3) (OBasic (BRef (RNode 3))) = Ok true
  ∧ Entity_eq likes_knows (RNode 3) (OBasic (BRef (RNode 3))) = Ok true
  ∧ Entity_hash py_hash likes_knows (RNode 3) = Entity_hash py_hash likes_knows (RRel 3).
Proof.
  intros py_hash.
  pose proof (Entity_eq_equivalence py_hash likes_knows (RNode 3) (RRel 3) (RNode 3)
                3%nat 3%nat) as (_ & _ & Htrans & Hhash & Hcross).
  assert (H1 : Entity_eq likes_knows (RNode 3) (OBasic (BRef (RRel 3))) = Ok true)
    by (apply Hcross; reflexivity).
  split; [exact H1|]. split; [reflexivity|]. split.
  - apply Htrans; [exact H1|reflexivity].
  - apply Hhash. exact H1.
Defined.

Lemma Path_eq_total h (p : Path) (s : ref) (other : pyobj) :
  Path_start p = Ok s → well_formed other → ∃ b, Path_eq h p other = Ok b.
Proof.
  intros Hp Hwf. unfold Path_eq. rewrite Hp. cbn [mbind result_bind].
  assert (Hstart : (∃ a, getattr_start h other = Ok a)
                   ∨ getattr_start h other = Raise AttributeError).
  { destruct other as [[v|[l|l]|t]|q|attrs]; simpl; eauto using foreign_getattr_cases.
    simpl in Hwf. unfold Path_start. destruct (path_nodes q) as [|x rest]; [done|].
    rewrite py_index_head. simpl. eauto. }
  destruct Hstart as [[a ->]| ->]; [|simpl; eauto]. cbn [mbind result_bind].
  rewrite Entity_eq_unfold. cbn [mbind result_bind].
  destruct (match getattr_id h (OBasic a) with
            | Ok a0 => value_eq (ref_id h s) a0
            | Raise _ => false
            end); [|simpl; eauto].
  assert (Hrels : (∃ t, getattr_relationships other = Ok t)
                  ∨ getattr_relationships other = Raise AttributeError).
  { destruct other as [c|q|attrs]; simpl; eauto using foreign_getattr_cases. }
  destruct Hrels as [[t ->]| ->]; [|simpl; eauto]. cbn [mbind result_bind].
  destruct t as [v|x|t]; simpl; eauto.
  rewrite tuple_eq_spec. simpl. eauto.
Qed.

(** X9: on paths that have a start node, as every constructed path has,
    [==] is an equivalence relation; [!=] is its negation; and comparing
    such a path with any operand, be it a scalar, an entity, a tuple,
    another such path or a foreign object, answers without raising. *)
Theorem Path_eq_equivalence (h : heap) (p q r : Path) (s1 s2 s3 : ref) :
  Path_start p = Ok s1 → Path_start q = Ok s2 → Path_start r = Ok s3 →
  Path_eq h p (OPath p) = Ok true
  ∧ Path_eq h p (OPath q) = Path_eq h q (OPath p)
  ∧ (Path_eq h p (OPath q) = Ok true → Path_eq h q (OPath r) = Ok true →
     Path_eq h p (OPath r) = Ok true)
  ∧ (∀ other, well_formed other →
       ∃ b, Path_eq h p other = Ok b ∧ Path_ne h p other = Ok (negb b)).
Proof.
  intros Hp Hq Hr. split; [|split; [|split]].
  - apply (Path_eq_Path_true h p p s1 s1 Hp Hp). split; [done|].
    by induction (path_relationships p); constructor.
  - rewrite (Path_eq_Path h p q s1 s2 Hp Hq), (Path_eq_Path h q p s2 s1 Hq Hp).
    f_equal. f_equal.
    + apply bool_decide_ext. split; congruence.
    + apply bool_decide_ext. split; intros HF; apply Forall2_flip;
        eapply Forall2_impl; try exact HF; simpl; congruence.
  - rewrite (Path_eq_Path_true h p q s1 s2 Hp Hq),
      (Path_eq_Path_true h q r s2 s3 Hq Hr), (Path_eq_Path_true h p r s1 s3 Hp Hr).
    intros [H1 H2] [H3 H4]. split; [congruence|].
    eapply Forall2_trans; [|exact H2|exact H4]. simpl. congruence.
  - intros other Hwf. destruct (Path_eq_total h p s1 other Hp Hwf) as [b Hb].
    exists b. split; [exact Hb|]. unfold Path_ne. by rewrite Hb.
Qed.

(** Applied to two walks over the relationships 0 and 1 of the numbered
    store that differ in their nodes, and to the operand [None]. *)
Lemma Path_eq_equivalence_witness :
  let p := Path_init (RNode 0) [RRel 0; RNode 1; RRel 1; RNode 2] in
  let q := Path_init (RNode 0) [RRel 0; RNode 5; RRel 1; RNode 6] in
  Path_start p = Ok (RNode 0) ∧ Path_start q = Ok (RNode 0)
  ∧ Path_eq numbered p (OPath q) = Ok true
  ∧ Path_eq numbered q (OPath p) = Ok true
  ∧ well_formed (OBasic (BVal VNone))
  ∧ ∃ b, Path_eq numbered p (OBasic (BVal VNone)) = Ok b
         ∧ Path_ne numbered p (OBasic (BVal VNone)) = Ok (negb b).
Proof.
  intros p q.
  pose proof (Path_eq_equivalence numbered p q p (RNode 0) (RNode 0) (RNode 0)
                eq_refl eq_refl eq_refl) as (_ & Hsym & _ & Htotal).
  split; [reflexivity|]. split; [reflexivity|]. split; [reflexivity|].
  split; [by rewrite <- Hsym|]. split; [exact I|]. apply Htotal. exact I.
Defined.

(** ** The path constructor *)

Lemma slice_0_2_length {A} (l : list A) :
  length (slice_0_2 l) = Nat.div2 (S (length l)).
Proof.
  induction l as [| a | a b l IH] using list_pair_ind; [done..|].
  cbn [slice_0_2 length]. rewrite IH. reflexivity.
Qed.

Lemma slice_1_2_length {A} (l : list A) :
  length (slice_1_2 l) = Nat.div2 (length l).
Proof.
  induction l as [| a | a b l IH] using list_pair_ind; [done..|].
  rewrite slice_1_2_cons_cons. cbn [length]. rewrite IH. reflexivity.
Qed.

Lemma div2_succ_even (n : nat) :
  Nat.div2 (S n) = Nat.div2 n ↔ Nat.even n = true.
Proof.
  cut ((Nat.div2 (S n) = Nat.div2 n ↔ Nat.even n = true)
       ∧ (Nat.div2 (S (S n)) = Nat.div2 (S n) ↔ Nat.even (S n) = true));
    [tauto|].
  induction n as [|n [IH1 IH2]]; [by split|]. split; [exact IH2|].
  change (Nat.div2 (S (S (S n)))) with (S (Nat.div2 (S n))).
  change (Nat.div2 (S (S n))) with (S (Nat.div2 n)).
  change (Nat.even (S (S n))) with (Nat.even n).
  rewrite <- IH1. split; congruence.
Qed.

(** X10: [Path(start_node, *rels_and_nodes)] takes the further arguments
    alternately as relationships and nodes without checking them: the
    start is [start_node], the end exists, there are as many relationships
    as half the further arguments rounded up and one node more than half of
    them rounded down; so the path has one node more than relationships
    exactly when the number of further arguments is even. *)
Theorem Path_init_shape (start_node : ref) (rels_and_nodes : list ref) :
  let p := Path_init start_node rels_and_nodes in
  Path_start p = Ok start_node
  ∧ (∃ e, Path_end p = Ok e ∧ list.last (path_nodes p) = Some e)
  ∧ Path_len p = Nat.div2 (S (length rels_and_nodes))
  ∧ length (path_nodes p) = S (Nat.div2 (length rels_and_nodes))
  ∧ (length (path_nodes p) = S (Path_len p)
     ↔ Nat.even (length rels_and_nodes) = true).
Proof.
  intros p. split; [reflexivity|]. split; [|split; [|split]].
  - destruct (list.last (path_nodes p)) as [e|] eqn:He; [|by apply last_None in He].
    exists e. split; [|done]. by apply py_index_last.
  - apply slice_0_2_length.
  - unfold p, Path_init. cbn [path_nodes length]. by rewrite slice_1_2_length.
  - unfold Path_len, p, Path_init. cbn [path_nodes path_relationships length].
    rewrite slice_0_2_length, slice_1_2_length, <- div2_succ_even.
    split; congruence.
Qed.

(** Applied to a start node followed by a relationship alone, and by a
    relationship and a node. *)
Lemma Path_init_shape_witness :
  Nat.even (length [RRel 0; RNode 1]) = true
  ∧ length (path_nodes (Path_init (RNode 0) [RRel 0; RNode 1]))
    = S (Path_len (Path_init (RNode 0) [RRel 0; RNode 1]))
  ∧ length (path_nodes (Path_init (RNode 0) [RRel 0])) = 1%nat
  ∧ Path_len (Path_init (RNode 0) [RRel 0]) = 1%nat.
Proof.
  split; [reflexivity|]. split.
  - apply (proj2 (proj2 (proj2 (proj2 (Path_init_shape (RNode 0) [RRel 0; RNode 1]))))).
    reflexivity.
  - split.
    + exact (proj1 (proj2 (proj2 (proj2 (Path_init_shape (RNode 0) [RRel 0]))))).
    + exact (proj1 (proj2 (proj2 (Path_init_shape (RNode 0) [RRel 0])))).
Defined.

(** ** Collisions of the path hash *)

(** X11: a relationship that a path traverses twice, or two relationships
    of the path with the same identifier, take no part in its hash: the
    path hashes as the path without the two. *)
Theorem Path_hash_repeated_relationship (py_hash : value → Z) (h : heap)
    (p : Path) (s r r' : ref) (l1 l2 l3 : list ref) :
  Path_start p = Ok s →
  path_relationships p = l1 ++ r :: l2 ++ r' :: l3 →
  ref_id h r = ref_id h r' →
  Path_hash py_hash h p
  = Path_hash py_hash h (mkPath (path_nodes p) (l1 ++ l2 ++ l3)).
Proof.
  intros Hs Hrels Hid.
  rewrite (Path_hash_xor py_hash h p s Hs),
    (Path_hash_xor py_hash h (mkPath (path_nodes p) (l1 ++ l2 ++ l3)) s Hs).
  rewrite Hrels. cbn [path_relationships]. do 2 f_equal.
  rewrite (xor_all_Permutation (Entity_hash py_hash h <$> l1 ++ r :: l2 ++ r' :: l3)
             (Entity_hash py_hash h <$> r :: r' :: l1 ++ l2 ++ l3)).
  - rewrite !fmap_cons. cbn [foldr]. unfold Entity_hash at 1 2.
    by rewrite Hid, <- Z.lxor_assoc, Z.lxor_nilpotent, Z.lxor_0_l.
  - apply fmap_Permutation.
    rewrite <- Permutation_middle. apply perm_skip.
    rewrite (app_assoc l1 l2 (r' :: l3)), <- Permutation_middle.
    by rewrite <- app_assoc.
Qed.

(** Applied to the walk 0 -[0]-> 1 -[0]-> 0 of the numbered store, which
    hashes as node 0 alone. *)
Lemma Path_hash_repeated_relationship_witness :
  let py_hash := λ v, match v with VInt z => z | _ => 0 end in
  let p := Path_init (RNode 0) [RRel 0; RNode 1; RRel 0; RNode 0] in
  Path_start p = Ok (RNode 0)
  ∧ path_relationships p = [] ++ RRel 0 :: [] ++ RRel 0 :: []
  ∧ Path_hash py_hash numbered p
    = Path_hash py_hash numbered (Path_init (RNode 0) []).
Proof.
  intros py_hash p. split; [reflexivity|]. split; [reflexivity|].
  rewrite (Path_hash_repeated_relationship py_hash numbered p (RNode 0) (RRel 0)
             (RRel 0) [] [] [] eq_refl eq_refl eq_refl).
  reflexivity.
Defined.

(** ** Properties of constructed entities *)

Lemma Entity_init_not_None properties kwproperties (name : string) :
  Entity_init properties kwproperties !! name ≠ Some VNone.
Proof.
  rewrite Entity_init_lookup.
  destruct ((kwproperties ∪ default ∅ properties) !! name) as [[|z|s]|]; done.
Qed.

Lemma Entity_init_fixed (m : gmap string value) :
  (∀ name, m !! name ≠ Some VNone) → Entity_init (Some m) ∅ = m.
Proof.
  intros Hm. apply map_eq. intros name. rewrite Entity_init_lookup. simpl.
  rewrite (left_id_L ∅ (∪)). specialize (Hm name).
  by destruct (m !! name) as [[|z|s]|].
Qed.

(** X12: hydrating again from the attributes of a hydrated node, or of a
    hydrated relationship, gives back the same node or relationship: the
    properties that [Entity.__init__] stored pass through it unchanged. *)
Theorem hydrate_attributes_round_trip :
  (∀ id_ labels properties,
     let n := Node_hydrate id_ labels properties in
     Node_hydrate (node_id n) (Some (node_labels n)) (Some (node_properties n)) = n)
  ∧ (∀ id_ start end_ type properties,
       let r := Relationship_hydrate id_ start end_ type properties in
       Relationship_hydrate (rel_id r) (rel_start r) (rel_end r) (rel_type r)
         (Some (rel_properties r)) = r)
  ∧ (∀ properties kwproperties,
       Entity_init (Some (Entity_init properties kwproperties)) ∅
       = Entity_init properties kwproperties).
Proof.
  assert (Hfix : ∀ properties kwproperties,
            Entity_init (Some (Entity_init properties kwproperties)) ∅
            = Entity_init properties kwproperties).
  { intros. apply Entity_init_fixed. intros name. apply Entity_init_not_None. }
  split; [|split; [|exact Hfix]].
  - intros id_ labels properties n. unfold n, Node_hydrate, Node_init. simpl.
    by rewrite Hfix.
  - intros id_ start end_ type properties r.
    unfold r, Relationship_hydrate, Relationship_init. simpl. by rewrite Hfix.
Qed.

(** X13: on a constructed node or relationship no property is [None], so
    that subscripting answers [None] exactly for the names that are not
    members, and [values()] never yields [None]. *)
Theorem constructed_properties_not_None :
  (∀ labels properties kwproperties (name : string),
     let n := Node_init labels properties kwproperties in
     (Entity_getitem n name = VNone ↔ Entity_contains n name = false)
     ∧ VNone ∉ Entity_values n)
  ∧ (∀ id_ labels properties (name : string),
       let n := Node_hydrate id_ labels properties in
       (Entity_getitem n name = VNone ↔ Entity_contains n name = false)
       ∧ VNone ∉ Entity_values n)
  ∧ (∀ id_ start end_ type properties (name : string),
       let r := Relationship_hydrate id_ start end_ type properties in
       (Entity_getitem r name = VNone ↔ Entity_contains r name = false)
       ∧ VNone ∉ Entity_values r).
Proof.
  assert (Hkey : ∀ properties kwproperties (name : string),
            (dict_get (Entity_init properties kwproperties) name VNone = VNone
             ↔ dict_contains (Entity_init properties kwproperties) name = false)
            ∧ VNone ∉ (map_to_list (Entity_init properties kwproperties)).*2).
  { intros properties kwproperties name. split.
    - unfold dict_get, dict_contains. rewrite bool_decide_eq_false.
      pose proof (Entity_init_not_None properties kwproperties name) as Hn.
      destruct (Entity_init properties kwproperties !! name) as [v|].
      + split; [intros ->; done|]. intros Hc. destruct Hc. eauto.
      + split; [|done]. intros _ [? ?]. discriminate.
    - intros Hin. apply list_elem_of_fmap in Hin as ([k v] & Hv & Hin).
      simpl in Hv. subst v. apply elem_of_map_to_list in Hin.
      by apply Entity_init_not_None in Hin. }
  split; [|split].
  - intros labels properties kwproperties name. apply Hkey.
  - intros id_ labels properties name. apply Hkey.
  - intros id_ start end_ type properties name. apply Hkey.
Qed.

(** Applied to the node of Ann. *)
Lemma constructed_properties_not_None_witness :
  Entity_contains ann "nickname" = false
  ∧ Entity_getitem ann "nickname" = VNone
  ∧ VNone ∉ Entity_values ann.
Proof.
  pose proof (proj1 (proj2 constructed_properties_not_None) (VInt 1)
                (Some {[ "Person" ]})
                (Some (<["name" := VStr "Ann"]> (<["nickname" := VNone]> ∅)))
                "nickname") as [Hiff Hvalues].
  assert (Hc : Entity_contains ann "nickname" = false).
  { unfold ann, Node_hydrate, Node_init, Entity_contains, dict_contains. simpl.
    rewrite ann_properties_eq. apply bool_decide_eq_false. intros [v Hv].
    by rewrite lookup_singleton_ne in Hv. }
  split; [exact Hc|]. split; [by apply Hiff|exact Hvalues].
Defined.

(** ** Views of an entity *)

(** X14: the views of an entity agree with membership, subscripting and
    length: [keys()] yields exactly the member names, each once, and as
    many as [len]; [items()] yields [(name, value)] exactly when [name] is a
    member and [self[name]] is [value]; [values()] and [keys()] are the two
    sides of [items()]; iteration yields what [keys()] yields. *)
Theorem Entity_views_agree {T : Type} `{!Entity T} (self : T) :
  NoDup (Entity_keys self)
  ∧ length (Entity_keys self) = Entity_len self
  ∧ length (Entity_values self) = Entity_len self
  ∧ (∀ name, name ∈ Entity_keys self ↔ Entity_contains self name = true)
  ∧ (∀ name v, (name, v) ∈ Entity_items self
               ↔ Entity_contains self name = true ∧ Entity_getitem self name = v)
  ∧ zip (Entity_keys self) (Entity_values self) = Entity_items self
  ∧ Entity_iter self = Entity_keys self.
Proof.
  unfold Entity_keys, Entity_values, Entity_items, Entity_iter, Entity_len,
    Entity_contains, Entity_getitem, dict_len, dict_contains, dict_get.
  split; [apply NoDup_fst_map_to_list|].
  split; [by rewrite length_fmap, length_map_to_list|].
  split; [by rewrite length_fmap, length_map_to_list|].
  split; [|split; [|split; [apply zip_fst_snd|done]]].
  - intros name. rewrite bool_decide_eq_true, list_elem_of_fmap. split.
    + intros ([k v] & -> & Hin). apply elem_of_map_to_list in Hin. eauto.
    + intros [v Hv]. exists (name, v). split; [done|]. by apply elem_of_map_to_list.
  - intros name v. rewrite elem_of_map_to_list, bool_decide_eq_true. split.
    + intros Hv. rewrite Hv. eauto.
    + intros [[w Hw] Hget]. rewrite Hw in Hget. by subst w.
Qed.

(** Applied to the node of Ann. *)
Lemma Entity_views_agree_witness :
  Entity_contains ann "name" = true
  ∧ "name" ∈ Entity_keys ann
  ∧ ("name", VStr "Ann") ∈ Entity_items ann.
Proof.
  pose proof (Entity_views_agree ann) as (_ & _ & _ & Hkeys & Hitems & _).
  assert (Hc : Entity_contains ann "name" = true).
  { unfold ann, Node_hydrate, Node_init, Entity_contains, dict_contains. simpl.
    rewrite ann_properties_eq. apply bool_decide_eq_true.
    by rewrite lookup_singleton_eq. }
  split; [exact Hc|]. split; [by apply Hkeys|]. apply Hitems. split; [exact Hc|].
  unfold ann, Node_hydrate, Node_init, Entity_getitem, dict_get. simpl.
  by rewrite ann_properties_eq, lookup_singleton_eq.
Defined.

(** ** Failure after the first pairs *)

Lemma hydrate_loop_sequence_ext nodes rels sequence1 sequence2 items st h :
  (∀ (i : nat) (a : Z), (i, a) ∈ items →
     py_index sequence1 (2 * Z.of_nat i + 1)
     = py_index sequence2 (2 * Z.of_nat i + 1)) →
  hydrate_loop nodes rels sequence1 items st h
  = hydrate_loop nodes rels sequence2 items st h.
Proof.
  revert st h. induction items as [|[i a] items IH]; intros st h Hext; [done|].
  rewrite !hydrate_loop_cons, !hydrate_body_run.
  rewrite (Hext i a) by apply list_elem_of_here.
  destruct (a =? 0); [done|].
  destruct (py_index sequence2 _) as [k|e]; [|done].
  destruct (py_index nodes k) as [n|e]; [|done].
  destruct (py_index rels _) as [r|e]; [|done]. cbv zeta.
  apply IH. intros i' a' Hin. apply (Hext i' a'). by apply list_elem_of_further.
Qed.

Lemma slice_0_2_app {A} (l1 l2 : list A) :
  Nat.even (length l1) = true →
  slice_0_2 (l1 ++ l2) = slice_0_2 l1 ++ slice_0_2 l2.
Proof.
  induction l1 as [| a | a b l1 IH] using list_pair_ind; [done|discriminate|].
  intros Hev. cbn [app slice_0_2]. by rewrite (IH Hev).
Qed.

Lemma enumerate_from_app {A} (n : nat) (l1 l2 : list A) :
  enumerate_from n (l1 ++ l2)
  = enumerate_from n l1 ++ enumerate_from (n + length l1) l2.
Proof.
  revert n. induction l1 as [|x l1 IH]; intros n; simpl.
  - by rewrite Nat.add_0_r.
  - rewrite IH. do 3 f_equal. lia.
Qed.

Lemma enumerate_from_elem {A} (n i : nat) (a : A) (l : list A) :
  (i, a) ∈ enumerate_from n l → ∃ j, i = (n + j)%nat ∧ l !! j = Some a.
Proof.
  revert n. induction l as [|x l IH]; intros n Hin; simpl in Hin.
  { by apply elem_of_nil in Hin. }
  apply elem_of_cons in Hin as [[= -> ->]|Hin].
  - exists 0%nat. split; [lia|done].
  - destruct (IH _ Hin) as (j & -> & Hj). exists (S j). split; [lia|done].
Qed.

Lemma hydrate_body_invalid nodes rels sequence st (i : nat) (a k : Z) h :
  py_index sequence (2 * Z.of_nat i + 1) = Ok k →
  valid_pair nodes rels (a, k) = false →
  ∃ e, hydrate_body nodes rels sequence st (i, a) h = (Raise e, h).
Proof.
  intros Hk Hinv. rewrite hydrate_body_run, Hk.
  destruct (Z.eqb_spec a 0) as [|Hnz]; [eauto|].
  destruct (py_index nodes k) as [n|e] eqn:Hn; [|eauto].
  destruct (py_index rels (Z.abs a - 1)) as [r|e] eqn:Hr; [|eauto].
  apply py_index_Ok_range in Hn, Hr. exfalso.
  apply not_true_iff_false in Hinv. apply Hinv. unfold valid_pair. cbn [fst snd].
  repeat (apply andb_true_iff; split).
  - by apply negb_true_iff, Z.eqb_neq.
  - apply Z.leb_le. lia.
  - apply Z.leb_le. lia.
  - apply Z.ltb_lt. lia.
Qed.

(** X15: [Path.hydrate] is not atomic.  When the pairs of [sequence1] are
    valid and the pair [(a, k)] that follows them is not, the call on the
    whole sequence raises, and leaves the store as the call on [sequence1]
    alone leaves it: what the pairs before the failure wrote remains. *)
Theorem Path_hydrate_failure_keeps_writes (nodes rels : list loc)
    (sequence1 rest : list Z) (a k : Z) (h : heap) :
  valid_input nodes rels sequence1 = true →
  valid_pair nodes rels (a, k) = false →
  Nat.even (length rest) = true →
  ∃ e, Path_hydrate nodes rels (sequence1 ++ a :: k :: rest) h
       = (Raise e, (Path_hydrate nodes rels sequence1 h).2).
Proof.
  intros Hvalid Hinv Hrest. unfold valid_input in Hvalid.
  apply andb_true_iff in Hvalid as [Hvalid Hpairs].
  apply andb_true_iff in Hvalid as [Hnodes Heven].
  rewrite !Path_hydrate_run, Hnodes, Heven.
  assert (Hev : Nat.even (length (sequence1 ++ a :: k :: rest)) = true).
  { rewrite length_app. cbn [length].
    replace (length sequence1 + S (S (length rest)))%nat
      with (S (S (length sequence1 + length rest))) by lia.
    cbn [Nat.even]. by rewrite Nat.even_add, Heven, Hrest. }
  rewrite Hev. simpl negb. cbv iota.
  destruct (py_index_in_range nodes 0) as [n0 Hn0]; [apply Z.leb_le in Hnodes; lia|].
  rewrite Hn0. unfold enumerate.
  rewrite slice_0_2_app, enumerate_from_app, hydrate_loop_app by done.
  rewrite <- (hydrate_loop_sequence_ext nodes rels sequence1).
  - destruct (hydrate_loop_valid nodes rels sequence1 sequence1 [] 0
                (mkLoop n0 [RNode n0]) h eq_refl eq_refl Heven Hpairs)
      as (st1 & h1 & Hrun & _).
    rewrite Hrun. cbn [slice_0_2 enumerate_from]. rewrite hydrate_loop_cons.
    destruct (hydrate_body_invalid nodes rels (sequence1 ++ a :: k :: rest) st1
                (0 + length (slice_0_2 sequence1)) a k h1) as [e He]; [|exact Hinv|].
    + replace (2 * Z.of_nat (0 + length (slice_0_2 sequence1)) + 1)
        with (Z.of_nat (length sequence1 + 1)).
      * apply py_index_nat. rewrite lookup_app_r by lia.
        by replace (length sequence1 + 1 - length sequence1)%nat with 1%nat by lia.
      * rewrite slice_0_2_length.
        apply Nat.even_spec in Heven as [m Hm]. rewrite Hm.
        replace (Nat.div2 (S (2 * m))) with m; [lia|].
        symmetry. apply Nat.div2_succ_double.
    + rewrite He. by exists e.
  - intros i b Hin. apply enumerate_from_elem in Hin as (j & -> & Hj).
    rewrite slice_0_2_lookup in Hj. apply lookup_lt_Some in Hj as Hlt.
    assert (Hlt' : (2 * j + 1 < length sequence1)%nat).
    { apply Nat.even_spec in Heven as [m Hm]. lia. }
    destruct (lookup_lt_is_Some_2 sequence1 (2 * j + 1) Hlt') as [c Hc].
    replace (2 * Z.of_nat (0 + j) + 1) with (Z.of_nat (2 * j + 1)) by lia.
    rewrite (py_index_nat sequence1 _ c Hc).
    symmetry. apply py_index_nat. by rewrite lookup_app_l.
Qed.

(** Applied to a valid first pair followed by a pair whose selector is
    zero: relationship 0 keeps the endpoints of the first pair. *)
Lemma Path_hydrate_failure_keeps_writes_witness :
  valid_input [0; 1]%nat [0%nat] [1; 1] = true
  ∧ valid_pair [0; 1]%nat [0%nat] (0, 0) = false
  ∧ ∃ e h',
      Path_hydrate [0; 1]%nat [0%nat] ([1; 1] ++ 0 :: 0 :: []) numbered = (Raise e, h')
      ∧ h' = (Path_hydrate [0; 1]%nat [0%nat] [1; 1] numbered).2
      ∧ Relationship_nodes (rel_store h' 0%nat) = (VInt 0, VInt 1).
Proof.
  split; [reflexivity|]. split; [reflexivity|].
  destruct (Path_hydrate_failure_keeps_writes [0; 1]%nat [0%nat] [1; 1] [] 0 0
              numbered eq_refl eq_refl eq_refl) as [e He].
  exists e, (Path_hydrate [0; 1]%nat [0%nat] [1; 1] numbered).2.
  split; [exact He|]. split; reflexivity.
Defined.

(** ** Negative node indices *)

Lemma py_index_from_front {A} (l : list A) (k : Z) :
  - Z.of_nat (length l) ≤ k →
  py_index l (if k <? 0 then k + Z.of_nat (length l) else k) = py_index l k.
Proof.
  intros Hk. destruct (Z.ltb_spec k 0) as [Hneg|_]; [|done].
  unfold py_index. destruct (Z.ltb_spec k 0) as [_|?]; [|lia].
  by destruct (Z.ltb_spec (k + Z.of_nat (length l)) 0) as [?|_]; [lia|].
Qed.

Lemma hydrate_loop_nodes_ext nodes rels sequence1 sequence2 items st h :
  (∀ (i : nat) (a : Z), (i, a) ∈ items →
     py_index sequence1 (2 * Z.of_nat i + 1) ≫= py_index nodes
     = py_index sequence2 (2 * Z.of_nat i + 1) ≫= py_index nodes) →
  hydrate_loop nodes rels sequence1 items st h
  = hydrate_loop nodes rels sequence2 items st h.
Proof.
  revert st h. induction items as [|[i a] items IH]; intros st h Hext; [done|].
  rewrite !hydrate_loop_cons.
  assert (Hbody : hydrate_body nodes rels sequence1 st (i, a) h
                  = hydrate_body nodes rels sequence2 st (i, a) h).
  { rewrite !hydrate_body_run. destruct (a =? 0); [done|].
    pose proof (Hext i a (list_elem_of_here _ _)) as Hi.
    destruct (py_index sequence1 _) as [k1|e1], (py_index sequence2 _) as [k2|e2];
      simpl in Hi; rewrite ?Hi; try done.
    - by rewrite <- Hi.
    - by injection Hi as ->. }
  rewrite Hbody.
  destruct (hydrate_body nodes rels sequence2 st (i, a) h) as [[st1|e] h1]; [|done].
  apply IH. intros i' a' Hin. apply (Hext i' a'). by apply list_elem_of_further.
Qed.

Lemma from_front_length (n : Z) (sequence : list Z) :
  length (from_front n sequence) = length sequence.
Proof.
  induction sequence as [| a | a k l IH] using list_pair_ind; [done..|].
  cbn [from_front length]. by rewrite IH.
Qed.

Lemma from_front_slice (n : Z) (sequence : list Z) :
  slice_0_2 (from_front n sequence) = slice_0_2 sequence.
Proof.
  induction sequence as [| a | a k l IH] using list_pair_ind; [done..|].
  cbn [from_front slice_0_2]. by rewrite IH.
Qed.

Lemma from_front_pairs (n : Z) (sequence : list Z) :
  pairs (from_front n sequence)
  = (λ p, (p.1, if p.2 <? 0 then p.2 + n else p.2)) <$> pairs sequence.
Proof.
  induction sequence as [| a | a k l IH] using list_pair_ind; [done..|].
  cbn [from_front pairs]. by rewrite fmap_cons, IH.
Qed.

Lemma pairs_lookup_inv (sequence : list Z) (j : nat) (a : Z) :
  Nat.even (length sequence) = true →
  sequence !! (2 * j)%nat = Some a →
  ∃ k, pairs sequence !! j = Some (a, k).
Proof.
  revert j. induction sequence as [| b | b c l IH] using list_pair_ind;
    intros j Hev Hj; [done|discriminate|].
  destruct j as [|j].
  - injection Hj as ->. by exists c.
  - replace (2 * S j)%nat with (S (S (2 * j))) in Hj by lia. by apply IH.
Qed.

(** X16: [Path.hydrate] takes a negative node index as Python indexing
    does, counting from the end of [nodes]: a valid call gives the same
    path and the same store as the call in which every negative node index
    [k] is written [k + len(nodes)], and that call is valid too. *)
Theorem Path_hydrate_negative_node_index (nodes rels : list loc)
    (sequence : list Z) (h : heap) :
  valid_input nodes rels sequence = true →
  valid_input nodes rels (from_front (Z.of_nat (length nodes)) sequence) = true
  ∧ Forall (λ p, 0 ≤ p.2)
      (pairs (from_front (Z.of_nat (length nodes)) sequence))
  ∧ Path_hydrate nodes rels (from_front (Z.of_nat (length nodes)) sequence) h
    = Path_hydrate nodes rels sequence h.
Proof.
  intros Hvalid. pose proof Hvalid as Hv. unfold valid_input in Hv.
  apply andb_true_iff in Hv as [Hv Hpairs]. apply andb_true_iff in Hv as [Hnodes Heven].
  rewrite forallb_forall in Hpairs.
  assert (Hrange : ∀ a k, In (a, k) (pairs sequence) →
            - Z.of_nat (length nodes) ≤ k < Z.of_nat (length nodes)
            ∧ a ≠ 0 ∧ Z.abs a ≤ Z.of_nat (length rels)).
  { intros a k Hin. specialize (Hpairs _ Hin). unfold valid_pair in Hpairs.
    cbn [fst snd] in Hpairs.
    apply andb_true_iff in Hpairs as [Hp H4]. apply andb_true_iff in Hp as [Hp H3].
    apply andb_true_iff in Hp as [H1 H2]. apply negb_true_iff, Z.eqb_neq in H1.
    apply Z.leb_le in H2, H3. apply Z.ltb_lt in H4. lia. }
  split; [|split].
  - unfold valid_input. rewrite from_front_length, Hnodes, Heven, from_front_pairs.
    simpl. apply forallb_forall. intros q Hq. apply in_map_iff in Hq as ([a k] & <- & Hq).
    destruct (Hrange a k Hq) as (Hk & Hnz & Ha). unfold valid_pair. cbn [fst snd].
    repeat (apply andb_true_iff; split).
    + by apply negb_true_iff, Z.eqb_neq.
    + by apply Z.leb_le.
    + apply Z.leb_le. destruct (Z.ltb_spec k 0); lia.
    + apply Z.ltb_lt. destruct (Z.ltb_spec k 0); lia.
  - rewrite from_front_pairs. apply Forall_fmap, Forall_forall. intros [a k] Hq.
    destruct (Hrange a k Hq) as (Hk & _). simpl. destruct (Z.ltb_spec k 0); lia.
  - rewrite !Path_hydrate_run, from_front_length, from_front_slice.
    destruct (negb (1 <=? _)); [done|]. destruct (negb (Nat.even _)); [done|].
    destruct (py_index nodes 0) as [n0|e]; [|done].
    rewrite (hydrate_loop_nodes_ext nodes rels
               (from_front (Z.of_nat (length nodes)) sequence) sequence); [done|].
    intros i a Hin. apply enumerate_from_elem in Hin as (j & -> & Hj).
    rewrite slice_0_2_lookup in Hj.
    destruct (pairs_lookup_inv sequence j a Heven Hj) as [k Hk].
    assert (Hk' : pairs (from_front (Z.of_nat (length nodes)) sequence) !! j
                  = Some (a, if k <? 0 then k + Z.of_nat (length nodes) else k)).
    { by rewrite from_front_pairs, list_lookup_fmap, Hk. }
    apply pairs_lookup in Hk as Hseq. apply pairs_lookup in Hk' as Hseq'.
    destruct Hseq as [_ Hseq], Hseq' as [_ Hseq'].
    replace (2 * Z.of_nat (0 + j) + 1) with (Z.of_nat (2 * j + 1)) by lia.
    rewrite (py_index_nat _ _ _ Hseq), (py_index_nat _ _ _ Hseq'). simpl.
    apply py_index_from_front.
    apply (Hrange a k). apply list_elem_of_In. by eapply list_elem_of_lookup_2.
Qed.

(** Applied to a walk that names its nodes from the end: [-1] is node 2
    and [-3] is node 0. *)
Lemma Path_hydrate_negative_node_index_witness :
  valid_input [0; 1; 2]%nat [0; 1]%nat [1; -1; -2; -3] = true
  ∧ from_front 3 [1; -1; -2; -3] = [1; 2; -2; 0]
  ∧ Path_hydrate [0; 1; 2]%nat [0; 1]%nat [1; 2; -2; 0] numbered
    = Path_hydrate [0; 1; 2]%nat [0; 1]%nat [1; -1; -2; -3] numbered.
Proof.
  split; [reflexivity|]. split; [reflexivity|].
  exact (proj2 (proj2 (Path_hydrate_negative_node_index [0; 1; 2]%nat [0; 1]%nat
                         [1; -1; -2; -3] numbered eq_refl))).
Defined.

(** ** Pairs with a negative selector *)

Lemma enumerate_from_lookup_inv {A} (l : list A) (n m i : nat) (a : A) :
  enumerate_from n l !! m = Some (i, a) → i = (n + m)%nat ∧ l !! m = Some a.
Proof.
  revert n m. induction l as [|x l IH]; intros n [|m]; simpl; try discriminate.
  - intros [= <- <-]. split; [lia|done].
  - intros Hm. destruct (IH _ _ Hm) as [-> Hl]. split; [lia|done].
Qed.

Lemma enumerate_from_length {A} (n : nat) (l : list A) :
  length (enumerate_from n l) = length l.
Proof. revert n. induction l as [|x l IH]; intros n; simpl; [done|]. by rewrite IH. Qed.

Lemma slice_0_2_cons {A} (x : A) (l : list A) :
  slice_0_2 (x :: l) = x :: slice_1_2 l.
Proof. by destruct l. Qed.

Lemma hydrate_loop_walk nodes rels sequence items st h st' h' :
  hydrate_loop nodes rels sequence items st h = (Ok st', h') →
  list.last (entities st) = Some (RNode (last_node st)) →
  length (entities st') = (length (entities st) + 2 * length items)%nat
  ∧ list.last (entities st') = Some (RNode (last_node st'))
  ∧ ∃ l, entities st' = entities st ++ l.
Proof.
  revert st h. induction items as [|[i a] items IH]; intros st h.
  { intros [= <- _] Hlast. split; [simpl; lia|]. split; [done|].
    exists []. by rewrite app_nil_r. }
  rewrite hydrate_loop_cons.
  destruct (hydrate_body nodes rels sequence st (i, a) h) as [[st1|e] h1] eqn:Hb;
    [|discriminate].
  apply hydrate_body_Ok in Hb as (k & n & r & _ & _ & _ & _ & -> & _).
  intros Hrun _. destruct (IH _ _ Hrun) as (Hlen & Hlast & l & Hl).
  { cbn [entities last_node].
    by rewrite (app_assoc _ [RRel r] [RNode n]), last_snoc. }
  cbn [entities] in Hlen, Hl. split; [|split; [exact Hlast|]].
  - rewrite Hlen, length_app. simpl. lia.
  - eexists. by rewrite Hl, <- app_assoc.
Qed.

(** C2: an iteration of the loop of [Path.hydrate] for a pair whose
    relationship selector is negative takes the relationship
    [rels[|rel_index| - 1]], sets its start to the identifier of the next
    node and its end to the identifier of the last node, and appends it and
    the next node to the entities; nothing asks that the next node differ
    from the last one.  On a valid input [Path.hydrate] does so for every
    pair of the sequence with a negative selector: its run reaches the
    pair, makes the two assignments, and ends as the loop ends from there;
    the path it returns has the relationship at the position of the pair,
    between the last and the next node, and the store it leaves holds the
    two assignments unless a later pair selects the same relationship.
    For nodes [A, B], relationship [R1] and the sequence [-1, 0] the result
    is the path of length 1 with nodes (A, A) whose relationship starts and
    ends at A. *)
Theorem reverse_decompression :
  (∀ (h : heap) (nodes rels : list loc) (sequence : list Z) (st : loop_state)
     (i : nat) (rel_index k : Z) (next_node r : loc),
     rel_index < 0 →
     py_index sequence (2 * Z.of_nat i + 1) = Ok k →
     py_index nodes k = Ok next_node →
     py_index rels (Z.abs rel_index - 1) = Ok r →
     ∃ h', hydrate_body nodes rels sequence st (i, rel_index) h
           = (Ok (mkLoop next_node (entities st ++ [RRel r; RNode next_node])), h')
       ∧ rel_start (rel_store h' r) = node_id (node_store h' next_node)
       ∧ rel_end (rel_store h' r) = node_id (node_store h' (last_node st)))
  ∧ (∀ (h : heap) (nodes rels : list loc) (sequence : list Z)
       (j : nat) (rel_index k : Z),
       valid_input nodes rels sequence = true →
       pairs sequence !! j = Some (rel_index, k) →
       rel_index < 0 →
       ∃ st h1 h2 st' p h',
         hydrate_loop nodes rels sequence
           (take j (enumerate (slice_0_2 sequence)))
           (mkLoop (node_at nodes 0) [RNode (node_at nodes 0)]) h
         = (Ok st, h1)
         ∧ hydrate_body nodes rels sequence st (j, rel_index) h1
           = (Ok (mkLoop (node_at nodes k)
                    (entities st
                     ++ [RRel (rel_at rels rel_index); RNode (node_at nodes k)])),
              h2)
         ∧ rel_start (rel_store h2 (rel_at rels rel_index))
           = node_id (node_store h2 (node_at nodes k))
         ∧ rel_end (rel_store h2 (rel_at rels rel_index))
           = node_id (node_store h2 (last_node st))
         ∧ hydrate_loop nodes rels sequence
             (drop (S j) (enumerate (slice_0_2 sequence)))
             (mkLoop (node_at nodes k)
                (entities st
                 ++ [RRel (rel_at rels rel_index); RNode (node_at nodes k)]))
             h2
           = (Ok st', h')
         ∧ Path_new (entities st') = Ok p
         ∧ Path_hydrate nodes rels sequence h = (Ok p, h')
         ∧ py_index rels (Z.abs rel_index - 1) = Ok (rel_at rels rel_index)
         ∧ py_index nodes k = Ok (node_at nodes k)
         ∧ path_relationships p !! j = Some (RRel (rel_at rels rel_index))
         ∧ path_nodes p !! j = Some (RNode (last_node st))
         ∧ path_nodes p !! S j = Some (RNode (node_at nodes k))
         ∧ ((∀ (j' : nat) (sel' k' : Z),
               (j < j')%nat → pairs sequence !! j' = Some (sel', k') →
               rel_at rels sel' ≠ rel_at rels rel_index) →
            rel_start (rel_store h' (rel_at rels rel_index))
            = node_id (node_store h' (node_at nodes k))
            ∧ rel_end (rel_store h' (rel_at rels rel_index))
              = node_id (node_store h' (last_node st))))
  ∧ (∀ (h : heap) (A B R1 : loc),
       ∃ p h', Path_hydrate [A; B] [R1] [-1; 0] h = (Ok p, h')
         ∧ Path_len p = 1%nat
         ∧ path_nodes p = [RNode A; RNode A]
         ∧ path_relationships p = [RRel R1]
         ∧ rel_start (rel_store h' R1) = node_id (node_store h' A)
         ∧ rel_end (rel_store h' R1) = node_id (node_store h' A)).
Proof.
  assert (Hbody : ∀ (h : heap) (nodes rels : list loc) (sequence : list Z)
            (st : loop_state) (i : nat) (rel_index k : Z) (next_node r : loc),
            rel_index < 0 →
            py_index sequence (2 * Z.of_nat i + 1) = Ok k →
            py_index nodes k = Ok next_node →
            py_index rels (Z.abs rel_index - 1) = Ok r →
            ∃ h', hydrate_body nodes rels sequence st (i, rel_index) h
                  = (Ok (mkLoop next_node
                           (entities st ++ [RRel r; RNode next_node])), h')
              ∧ rel_start (rel_store h' r) = node_id (node_store h' next_node)
              ∧ rel_end (rel_store h' r) = node_id (node_store h' (last_node st))).
  { intros h nodes rels sequence st i rel_index k next_node r Hneg Hk Hn Hr.
    rewrite hydrate_body_run, Hk, Hn, Hr.
    destruct (Z.eqb_spec rel_index 0) as [?|_]; [lia|].
    destruct (Z.ltb_spec 0 rel_index) as [?|_]; [lia|].
    eexists. split; [reflexivity|]. cbn [rel_store node_store].
    by rewrite !fn_lookup_alter. }
  split; [exact Hbody|]. split.
  - intros h nodes rels sequence j rel_index k Hvalid Hj Hneg.
    destruct (hydrate_loop_reaches nodes rels sequence h j rel_index k Hvalid Hj)
      as (st & h1 & st2 & h2 & Hitem & Hrun & _ & Hk & Hn & Hr).
    destruct (Hbody h1 nodes rels sequence st j rel_index k _ _ Hneg Hk Hn Hr)
      as (h2' & Hstep & Hstart & Hend). clear st2 h2.
    destruct (Path_hydrate_valid nodes rels sequence h Hvalid) as (hf & Hpath & _).
    pose proof Hvalid as Hv. unfold valid_input in Hv.
    apply andb_true_iff in Hv as [Hv Hpairs].
    apply andb_true_iff in Hv as [Hnodes Heven].
    assert (Hn0 : py_index nodes 0 = Ok (node_at nodes 0)).
    { unfold node_at.
      by destruct (py_index_in_range nodes 0) as [n0 ->];
        [apply Z.leb_le in Hnodes; lia|]. }
    pose proof Hpath as Hfull.
    rewrite Path_hydrate_run, Hnodes, Heven, Hn0 in Hfull. simpl negb in Hfull.
    cbv iota in Hfull.
    rewrite <- (take_drop_middle _ j _ Hitem), hydrate_loop_app, Hrun,
      hydrate_loop_cons, Hstep in Hfull.
    destruct (hydrate_loop nodes rels sequence
                (drop (S j) (enumerate (slice_0_2 sequence))) _ h2')
      as [[st'|e] h'] eqn:Hrest; [|discriminate].
    injection Hfull as Hnew <-.
    exists st, h1, h2', st',
      (mkPath (traversal_nodes nodes sequence)
         (traversal_relationships rels sequence)), h'.
    split; [exact Hrun|]. split; [exact Hstep|]. split; [exact Hstart|].
    split; [exact Hend|]. split; [exact Hrest|]. split; [exact Hnew|].
    split; [exact Hpath|]. split; [exact Hr|]. split; [exact Hn|].
    assert (Hlt : (j < length (enumerate (slice_0_2 sequence)))%nat)
      by (by eapply lookup_lt_Some).
    destruct (hydrate_loop_walk _ _ _ _ _ _ _ _ Hrun eq_refl)
      as (Hlen & Hlast & _).
    destruct (hydrate_loop_entities _ _ _ _ _ _ _ _ Hrest) as [l Hl].
    cbn [entities] in Hlen, Hl. rewrite length_take_le in Hlen by lia.
    split; [|split; [|split]].
    + cbn [path_relationships]. unfold traversal_relationships.
      by rewrite list_lookup_fmap, Hj.
    + destruct (entities st') as [|s rest] eqn:Hent; [discriminate Hnew|].
      cbn [Path_new] in Hnew.
      apply (f_equal (λ res, match res with
                             | Ok q => path_nodes q
                             | Raise _ => []
                             end)) in Hnew.
      cbn [Path_init path_nodes] in Hnew.
      cbn [path_nodes]. rewrite <- Hnew, <- slice_0_2_cons, slice_0_2_lookup.
      simpl in Hlen. rewrite Hl, <- app_assoc, lookup_app_l by lia.
      rewrite last_lookup in Hlast. rewrite <- Hlast. f_equal. lia.
    + cbn [path_nodes]. unfold traversal_nodes.
      change (((λ p, RNode (node_at nodes p.2)) <$> pairs sequence) !! j
              = Some (RNode (node_at nodes k))).
      by rewrite list_lookup_fmap, Hj.
    + intros Hlater.
      assert (Hkeep : rel_store h' (rel_at rels rel_index)
                      = rel_store h2' (rel_at rels rel_index)).
      { apply (hydrate_loop_unselected _ _ _ _ _ _ _ _ _ Hrest).
        intros Hin. apply list_elem_of_fmap in Hin as ([i' a'] & Heq & Hin).
        apply list_elem_of_lookup in Hin as [m Hm].
        rewrite lookup_drop in Hm. unfold enumerate in Hm.
        apply enumerate_from_lookup_inv in Hm as [_ Hm].
        rewrite slice_0_2_lookup in Hm.
        destruct (pairs_lookup_inv sequence _ a' Heven Hm) as [k' Hk'].
        apply (Hlater (S j + m)%nat a' k'); [lia|exact Hk'|by symmetry]. }
      destruct (hydrate_loop_frame _ _ _ _ _ _ _ _ Hrest) as (Hns & _).
      rewrite Hkeep, !Hns. by split.
  - intros h A B R1. eexists _, _. split; [reflexivity|].
    cbn [rel_store node_store]. rewrite !fn_lookup_alter. by repeat split.
Qed.

(** Applied to the second pair of the sequence [1, 1, -2, 1] over the
    numbered store, where the walk stays on node 1: first to one iteration
    from the state the first pair leaves, then to the whole call. *)
Lemma reverse_decompression_witness :
  -2 < 0
  ∧ py_index [1; 1; -2; 1] (2 * Z.of_nat 1 + 1) = Ok 1
  ∧ py_index [0; 1; 2]%nat 1 = Ok 1%nat
  ∧ py_index [0; 1]%nat (Z.abs (-2) - 1) = Ok 1%nat
  ∧ valid_input [0; 1; 2]%nat [0; 1]%nat [1; 1; -2; 1] = true
  ∧ pairs [1; 1; -2; 1] !! 1%nat = Some (-2, 1)
  ∧ (∃ h', hydrate_body [0; 1; 2]%nat [0; 1]%nat [1; 1; -2; 1]
             (mkLoop 1 [RNode 0; RRel 0; RNode 1]) (1%nat, -2) numbered
           = (Ok (mkLoop 1 [RNode 0; RRel 0; RNode 1; RRel 1; RNode 1]), h')
       ∧ rel_start (rel_store h' 1%nat) = VInt 1
       ∧ rel_end (rel_store h' 1%nat) = VInt 1)
  ∧ (∃ p h',
       Path_hydrate [0; 1; 2]%nat [0; 1]%nat [1; 1; -2; 1] numbered = (Ok p, h')
       ∧ path_relationships p !! 1%nat = Some (RRel 1)
       ∧ path_nodes p !! 1%nat = Some (RNode 1)
       ∧ path_nodes p !! 2%nat = Some (RNode 1)
       ∧ rel_start (rel_store h' 1%nat) = node_id (node_store h' 1%nat)
       ∧ rel_end (rel_store h' 1%nat) = node_id (node_store h' 1%nat)).
Proof.
  split; [lia|]. split; [reflexivity|]. split; [reflexivity|].
  split; [reflexivity|]. split; [reflexivity|]. split; [reflexivity|]. split.
  - destruct (proj1 reverse_decompression numbered [0; 1; 2]%nat [0; 1]%nat
                [1; 1; -2; 1] (mkLoop 1 [RNode 0; RRel 0; RNode 1]) 1%nat (-2) 1
                1%nat 1%nat ltac:(lia) eq_refl eq_refl eq_refl)
      as (h' & Hrun & Hs & He).
    exists h'. split; [exact Hrun|].
    injection Hrun as Hh. split; [by rewrite Hs, <- Hh|by rewrite He, <- Hh].
  - destruct (proj1 (proj2 reverse_decompression) numbered [0; 1; 2]%nat
                [0; 1]%nat [1; 1; -2; 1] 1%nat (-2) 1 eq_refl eq_refl ltac:(lia))
      as (st & h1 & h2 & st' & p & h' & Hrun & _ & _ & _ & _ & _ & Hpath & _ & _
          & Hrel & Hlast & Hnext & Hfinal).
    injection Hrun as Hst _. subst st.
    destruct Hfinal as [Hs He].
    { intros [|[|j']] sel' k' Hlt Hj'; [lia..|]. discriminate Hj'. }
    exists p, h'. split; [exact Hpath|]. split; [exact Hrel|].
    split; [exact Hlast|]. split; [exact Hnext|]. split; [exact Hs|exact He].
Defined.
